(** * sports_scraper.py: query interpretation, team matching, record parsing
      and CSV persistence

    A shallow embedding of [sports_scraper.py].  Python's [str] is a list of
    8-bit characters read as the code points U+0000..U+00FF; [datetime] is a
    day ordinal with a time of day; the wall clock, the HTTP transport, the
    output stream of [print_games] and the CSV file are explicit
    arguments. *)

From Stdlib Require Import ZArith QArith Ascii String List Lia Bool.
From stdpp Require Import base option list gmap sorting.

Open Scope string_scope.
Open Scope list_scope.
Open Scope Z_scope.

(** ** Text *)

Definition str := list ascii.

Definition of_string (s : string) : str := list_ascii_of_string s.
Coercion of_string : string >-> str.

Definition code (c : ascii) : Z := Z.of_N (N_of_ascii c).

Definition chr (z : Z) : ascii := ascii_of_N (Z.to_N z).

(** [str.lower] on one code point: A-Z and the Latin-1 capitals
    (U+00C0..U+00DE without the multiplication sign) move up by 32. *)
Definition lower_char (c : ascii) : ascii :=
  let n := code c in
  if ((65 <=? n) && (n <=? 90)) || ((192 <=? n) && (n <=? 222) && negb (n =? 215))
  then chr (n + 32) else c.

(** [str.upper] on one code point.  It is applied to the keys of the league
    table, which are ASCII; the three code points whose capital lies outside
    the range (U+00B5, U+00DF, U+00FF) are left as they are. *)
Definition upper_char (c : ascii) : ascii :=
  let n := code c in
  if ((97 <=? n) && (n <=? 122)) || ((224 <=? n) && (n <=? 254) && negb (n =? 247))
  then chr (n - 32) else c.

(** The characters [str.strip] removes and that [\s] matches. *)
Definition is_space (c : ascii) : bool :=
  let n := code c in
  ((9 <=? n) && (n <=? 13)) || ((28 <=? n) && (n <=? 32)) || (n =? 133) || (n =? 160).

(** The characters [\d] matches. *)
Definition is_digit (c : ascii) : bool :=
  let n := code c in (48 <=? n) && (n <=? 57).

Definition lower (s : str) : str := map lower_char s.
Definition upper (s : str) : str := map upper_char s.

Fixpoint lstrip (s : str) : str :=
  match s with
  | c :: s' => if is_space c then lstrip s' else s
  | [] => []
  end.

Definition rstrip (s : str) : str := rev (lstrip (rev s)).

Definition strip (s : str) : str := rstrip (lstrip s).

Definition ascii_eqb (a b : ascii) : bool := Ascii.eqb a b.

Fixpoint startswith (p s : str) : bool :=
  match p, s with
  | [], _ => true
  | a :: p', b :: s' => ascii_eqb a b && startswith p' s'
  | _ :: _, [] => false
  end.

(** [p in s] *)
Fixpoint contains (p s : str) : bool :=
  startswith p s ||
  match s with
  | [] => false
  | _ :: s' => contains p s'
  end.

Definition str_eqb (a b : str) : bool := bool_decide (a = b).

(** [s.replace(old, "")]: occurrences are found left to right and do not
    overlap; [skip] counts the characters of the occurrence being dropped. *)
Fixpoint remove_from (old : str) (skip : nat) (s : str) : str :=
  match s with
  | [] => []
  | c :: s' =>
      match skip with
      | S k => remove_from old k s'
      | O => if startswith old s then remove_from old (length old - 1) s'
             else c :: remove_from old 0 s'
      end
  end.

Definition remove_all (old s : str) : str :=
  match old with
  | [] => s
  | _ => remove_from old 0 s
  end.

(** [s.split(sep)] for a non-empty separator: the head of the result is the
    part being read. *)
Fixpoint split_from (sep : str) (skip : nat) (s : str) : list str :=
  match s with
  | [] => [[]]
  | c :: s' =>
      match skip with
      | S k => split_from sep k s'
      | O => if startswith sep s then [] :: split_from sep (length sep - 1) s'
             else match split_from sep 0 s' with
                  | p :: ps => (c :: p) :: ps
                  | [] => [[c]]
                  end
      end
  end.

Definition split (sep s : str) : list str := split_from sep 0 s.

Definition digit_val (c : ascii) : Z := code c - 48.

(** [int(s)] on a run of decimal digits. *)
Definition int_of_digits (s : str) : Z :=
  fold_left (fun acc c => 10 * acc + digit_val c) s 0.

(** ** Regular expressions of the parsers *)

(** [re.search(r'(\d{6})', s)]: the leftmost six consecutive digits. *)
Fixpoint search_digits6 (s : str) : option str :=
  if (length (take 6 s) =? 6)%nat && forallb is_digit (take 6 s)
  then Some (take 6 s)
  else match s with
       | [] => None
       | _ :: s' => search_digits6 s'
       end.

(** [week\s*(\d{1,2})] anchored at the head of [s]: the group.  [\s*] is
    greedy; giving a blank back never helps, since the next character would
    be that blank and not a digit. *)
Definition week_at (s : str) : option str :=
  if startswith "week" s then
    match lstrip (drop 4 s) with
    | d1 :: r =>
        if is_digit d1 then
          match r with
          | d2 :: _ => if is_digit d2 then Some [d1; d2] else Some [d1]
          | [] => Some [d1]
          end
        else None
    | [] => None
    end
  else None.

(** [re.search(r'week\s*(\d{1,2})', s)]: group 1 of the leftmost match. *)
Fixpoint search_week (s : str) : option str :=
  match week_at s with
  | Some g => Some g
  | None => match s with
            | [] => None
            | _ :: s' => search_week s'
            end
  end.

(** [(\d{4})-(\d{2})-(\d{2})] anchored at the head of [s]: group 0. *)
Definition iso_at (s : str) : option str :=
  match s with
  | y1 :: y2 :: y3 :: y4 :: h1 :: m1 :: m2 :: h2 :: d1 :: d2 :: _ =>
      if forallb is_digit [y1; y2; y3; y4; m1; m2; d1; d2]
         && ascii_eqb h1 "-" && ascii_eqb h2 "-"
      then Some (take 10 s) else None
  | _ => None
  end.

Fixpoint search_iso (s : str) : option str :=
  match iso_at s with
  | Some g => Some g
  | None => match s with
            | [] => None
            | _ :: s' => search_iso s'
            end
  end.

(** ** Dates *)

(** A [datetime]: the proleptic Gregorian ordinal of the day (1 is
    0001-01-01, as [toordinal]) and the microseconds since midnight.  The
    clock is read well inside the range of [datetime], so that moving by a
    day does not overflow. *)
Record datetime := mk_datetime { dt_ord : Z; dt_tod : Z }.

#[global] Instance datetime_eq_dec : EqDecision datetime.
Proof. solve_decision. Defined.

(** [d + timedelta(days=n)] *)
Definition add_days (d : datetime) (n : Z) : datetime :=
  mk_datetime (dt_ord d + n) (dt_tod d).

Definition is_leap (y : Z) : bool :=
  (y mod 4 =? 0) && (negb (y mod 100 =? 0) || (y mod 400 =? 0)).

Definition days_before_year (y : Z) : Z :=
  let y1 := y - 1 in y1 * 365 + y1 / 4 - y1 / 100 + y1 / 400.

Definition DAYS_IN_MONTH : list Z := [31; 28; 31; 30; 31; 30; 31; 31; 30; 31; 30; 31].

Definition days_in_month (y m : Z) : Z :=
  if (m =? 2) && is_leap y then 29
  else nth (Z.to_nat (m - 1)) DAYS_IN_MONTH 0.

Definition days_before_month (y m : Z) : Z :=
  fold_right Z.add 0 (take (Z.to_nat (m - 1)) DAYS_IN_MONTH)
  + (if (2 <? m) && is_leap y then 1 else 0).

Definition ymd2ord (y m d : Z) : Z :=
  days_before_year y + days_before_month y m + d.

(** [datetime(y, m, d)], [None] for the [ValueError] of a date that does
    not exist. *)
Definition make_date (y m d : Z) : option datetime :=
  if (1 <=? y) && (y <=? 9999) && (1 <=? m) && (m <=? 12)
     && (1 <=? d) && (d <=? days_in_month y m)
  then Some (mk_datetime (ymd2ord y m d) 0) else None.

(** [datetime.strptime(s, "%m%d%y")] on the six digits found by [\d{6}].
    The format compiles to [(1[0-2]|0[1-9]|[1-9])(3[0-1]|[1-2]\d|0[1-9]|[1-9]|
    [1-9])(\d\d)] and must use up the whole string, so month and day take two
    digits each: a one-digit month or day leaves a digit unconverted.  Years
    00..68 are 20xx, 69..99 are 19xx. *)
Definition strptime_mdy (s : str) : option datetime :=
  match s with
  | [m1; m2; d1; d2; y1; y2] =>
      if forallb is_digit s then
        let m := int_of_digits [m1; m2] in
        let d := int_of_digits [d1; d2] in
        let y := int_of_digits [y1; y2] in
        if (1 <=? m) && (m <=? 12) && (1 <=? d) && (d <=? 31)
        then make_date (if y <=? 68 then 2000 + y else 1900 + y) m d
        else None
      else None
  | _ => None
  end.

(** [datetime.strptime(s, "%Y-%m-%d")] on the text found by
    [(\d{4})-(\d{2})-(\d{2})]. *)
Definition strptime_iso (s : str) : option datetime :=
  match s with
  | [y1; y2; y3; y4; h1; m1; m2; h2; d1; d2] =>
      if forallb is_digit [y1; y2; y3; y4; m1; m2; d1; d2]
         && ascii_eqb h1 "-" && ascii_eqb h2 "-" then
        let m := int_of_digits [m1; m2] in
        let d := int_of_digits [d1; d2] in
        if (1 <=? m) && (m <=? 12) && (1 <=? d) && (d <=? 31)
        then make_date (int_of_digits [y1; y2; y3; y4]) m d
        else None
      else None
  | _ => None
  end.

(** ** The league table *)

(** [APIS]: a dict, kept as its items in insertion order. *)
Definition APIS : list (str * str) :=
  [ ("nba" : str, "http://site.api.espn.com/apis/site/v2/sports/basketball/nba/scoreboard" : str);
    ("nfl" : str, "http://site.api.espn.com/apis/site/v2/sports/football/nfl/scoreboard" : str);
    ("nhl" : str, "http://site.api.espn.com/apis/site/v2/sports/hockey/nhl/scoreboard" : str);
    ("ncaab" : str, "http://site.api.espn.com/apis/site/v2/sports/basketball/mens-college-basketball/scoreboard" : str);
    ("ncaaf" : str, "http://site.api.espn.com/apis/site/v2/sports/football/college-football/scoreboard" : str) ].

(** [APIS.keys()] *)
Definition APIS_keys : list str := map fst APIS.

(** [APIS.get(lg)] *)
Definition APIS_get (lg : str) : option str :=
  snd <$> List.find (fun kv => str_eqb (fst kv) lg) APIS.

(** ** Truth values *)

(** [if week]: [None] and [0] are false. *)
Definition week_truthy (week : option Z) : bool :=
  match week with
  | Some w => negb (w =? 0)
  | None => false
  end.

(** [if date]: a [datetime] is always true. *)
Definition date_truthy (date : option datetime) : bool :=
  match date with
  | Some _ => true
  | None => false
  end.

(** [if s] for a string (or [None]): the empty string is false. *)
Definition str_truthy (s : option str) : bool :=
  match s with
  | Some (_ :: _) => true
  | _ => false
  end.

(** ** parse_query *)

Record query_intent := mk_query_intent {
  qi_league : option str;
  qi_week : option Z;
  qi_date : option datetime
}.

(** The [MMDDYY] attempt shared by the parsers: the first six-digit run,
    kept only if [strptime] accepts it. *)
Definition mmddyy_date (query : str) : option datetime :=
  match search_digits6 query with
  | Some date_str => strptime_mdy date_str
  | None => None
  end.

Definition iso_date (query : str) : option datetime :=
  match search_iso query with
  | Some g => strptime_iso g
  | None => None
  end.

Definition parse_query (query : str) (now : datetime) : query_intent :=
  let query := strip (lower query) in
  (* Detect league *)
  let league := List.find (fun lg => contains lg query) APIS_keys in
  (* Check for week *)
  let week := int_of_digits <$> search_week query in
  (* Extract date *)
  let date :=
    if contains "today" query then Some now
    else if contains "yesterday" query then Some (add_days now (-1))
    else if contains "tomorrow" query then Some (add_days now 1)
    else
      let date := mmddyy_date query in
      if negb (date_truthy date) then iso_date query else date in
  (* Default to today if no date and no week *)
  let date :=
    if negb (date_truthy date) && negb (week_truthy week) then Some now else date in
  mk_query_intent league week date.

(** ** parse_multi_league_query *)

Record league_query := mk_league_query {
  lq_leagues : list str;
  lq_date : datetime
}.

Definition parse_multi_league_query (query : str) (now : datetime) : league_query :=
  let query_lower := strip (lower query) in
  let query_lower := strip (remove_all "score" query_lower) in
  let date :=
    if contains "today" query_lower then Some now
    else if contains "yesterday" query_lower then Some (add_days now (-1))
    else if contains "tomorrow" query_lower then Some (add_days now 1)
    else mmddyy_date query_lower in
  let date := match date with Some d => d | None => now end in
  let leagues := filter (fun lg => contains lg query_lower = true) APIS_keys in
  mk_league_query leagues date.

(** ** parse_team_query *)

Record team_query := mk_team_query {
  tq_team1 : str;
  tq_team2 : option str;
  tq_date : datetime
}.

(** The text of a team query once the date token and the word [score] are
    taken out (lines 294-322), with the date found on the way. *)
Definition team_query_text (query : str) (now : datetime) : datetime * str :=
  let query := strip (lower query) in
  let '(date, query) :=
    if contains "today" query then (Some now, remove_all "today" query)
    else if contains "yesterday" query
      then (Some (add_days now (-1)), remove_all "yesterday" query)
    else if contains "tomorrow" query
      then (Some (add_days now 1), remove_all "tomorrow" query)
    else
      match search_digits6 query with
      | Some date_str =>
          match strptime_mdy date_str with
          | Some d => (Some d, remove_all date_str query)
          | None => (None, query)
          end
      | None => (None, query)
      end in
  let date := match date with Some d => d | None => now end in
  (date, strip (remove_all "score" query)).

(** [parts[0].strip()] and [parts[1].strip() if len(parts) > 1 else None] *)
Definition teams_of_parts (parts : list str) : str * option str :=
  (strip (nth 0 parts []),
   if (1 <? length parts)%nat then Some (strip (nth 1 parts [])) else None).

Definition parse_team_query (query : str) (now : datetime) : team_query :=
  let '(date, query) := team_query_text query now in
  if contains " vs " query then
    let '(team1, team2) := teams_of_parts (split " vs " query) in
    mk_team_query team1 team2 date
  else if contains " v " query then
    let '(team1, team2) := teams_of_parts (split " v " query) in
    mk_team_query team1 team2 date
  else mk_team_query (strip query) None date.

(** ** The request of fetch_games *)

(** A value of the [params] dict; [PDate d] is [d.strftime("%Y%m%d")]. *)
Inductive pvalue :=
| PInt (z : Z)
| PDate (d : datetime).

Definition params := list (str * pvalue).

(** Lines 100-109: the parameters of the request for league [lg]. *)
Definition request_params (lg : str) (week : option Z) (date : option datetime)
    (now : datetime) : params :=
  match week with
  | Some w =>
      if negb (w =? 0) && bool_decide (lg ∈ [("nfl" : str); ("ncaaf" : str)])
      then [("week" : str, PInt w); ("seasontype" : str, PInt 2)]
      else match date with
           | Some d => [("dates" : str, PDate d)]
           | None => [("dates" : str, PDate now)]
           end
  | None =>
      match date with
      | Some d => [("dates" : str, PDate d)]
      | None => [("dates" : str, PDate now)]
      end
  end.

(** Line 93: [[league] if league else list(APIS.keys())] *)
Definition leagues_to_fetch (league : option str) : list str :=
  match league with
  | Some (c :: l) => [c :: l]
  | _ => APIS_keys
  end.

(** ** One turn of interactive_mode *)

(** What one turn of the loop does with the line read. *)
Inductive action :=
| Goodbye                                          (* break *)
| Skip                                             (* empty line *)
| Help                                             (* print_help() *)
| AllSports (date : datetime)                      (* lines 422-457 *)
| TeamSearch (tq : team_query)                     (* lines 460-483 *)
| LeagueScores (leagues : list str) (date : datetime)  (* lines 486-505 *)
| UnknownCommand (user_input : str).               (* lines 507-510 *)

(** Lines 401-510 for the line [line] returned by [input]. *)
Definition interactive_step (line : str) (now : datetime) : action :=
  let user_input := strip line in
  match user_input with
  | [] => Skip
  | _ =>
    let cmd := lower user_input in
    if bool_decide (cmd ∈ [("quit" : str); ("exit" : str); ("q" : str)]) then Goodbye
    else if str_eqb cmd "help" then Help
    else if contains "all sports" cmd || contains "all score" cmd then
      let date :=
        if contains "today" cmd then Some now
        else if contains "yesterday" cmd then Some (add_days now (-1))
        else if contains "tomorrow" cmd then Some (add_days now 1)
        else mmddyy_date cmd in
      AllSports (match date with Some d => d | None => now end)
    else if contains " vs " cmd || contains " v " cmd then
      TeamSearch (parse_team_query user_input now)
    else
      let parsed := parse_multi_league_query user_input now in
      match lq_leagues parsed with
      | _ :: _ => LeagueScores (lq_leagues parsed) (lq_date parsed)
      | [] => UnknownCommand user_input
      end
  end.

(** The calls of [fetch_games] a turn makes: [(league, week, date)]. *)
Definition fetch_calls (a : action) : list (option str * option Z * option datetime) :=
  match a with
  | AllSports date => map (fun lg => (Some lg, None, Some date)) APIS_keys
  | TeamSearch tq => [(None, None, Some (tq_date tq))]
  | LeagueScores leagues date => map (fun lg => (Some lg, None, Some date)) leagues
  | Goodbye | Skip | Help | UnknownCommand _ => []
  end.

(** ** Decoded JSON *)

(** What [response.json()] returns.  An object is a dict, kept as its items;
    [None] is [JNull]. *)
#[warnings="-register-all"]
Inductive json :=
| JNull
| JBool (b : bool)
| JInt (z : Z)
| JFloat (q : Q)
| JStr (s : str)
| JArr (l : list json)
| JObj (items : list (str * json)).

(** [d.get(key, default)] *)
Definition dict_get (d : list (str * json)) (key : str) (default : json) : json :=
  match List.find (fun kv => str_eqb (fst kv) key) d with
  | Some kv => snd kv
  | None => default
  end.

(** [v.get]: only a dict has it ([AttributeError] otherwise). *)
Definition as_dict (v : json) : option (list (str * json)) :=
  match v with
  | JObj d => Some d
  | _ => None
  end.

(** [v[0]]: [IndexError] on an empty sequence, [KeyError] on a dict (its
    keys are strings), [TypeError] otherwise. *)
Definition index0 (v : json) : option json :=
  match v with
  | JArr (x :: _) => Some x
  | JStr (c :: _) => Some (JStr [c])
  | _ => None
  end.

(** [len(v)] *)
Definition py_len (v : json) : option nat :=
  match v with
  | JArr l => Some (length l)
  | JStr s => Some (length s)
  | JObj d => Some (length d)
  | _ => None
  end.

(** [for x in v]: the items of a list, the characters of a string, the keys
    of a dict. *)
Definition py_iter (v : json) : option (list json) :=
  match v with
  | JArr l => Some l
  | JStr s => Some (map (fun c => JStr [c]) s)
  | JObj d => Some (map (fun kv => JStr (fst kv)) d)
  | _ => None
  end.

(** [v[:10]] *)
Definition slice10 (v : json) : option json :=
  match v with
  | JStr s => Some (JStr (take 10 s))
  | JArr l => Some (JArr (take 10 l))
  | _ => None
  end.

(** [v == s] for a string literal [s] *)
Definition eq_str (v : json) (s : str) : bool :=
  match v with
  | JStr t => str_eqb t s
  | _ => false
  end.

(** ** Game records *)

Inductive game_status := Final | Live | Scheduled.

#[global] Instance game_status_eq_dec : EqDecision game_status.
Proof. solve_decision. Defined.

Definition status_text (st : game_status) : str :=
  match st with
  | Final => "Final"
  | Live => "Live"
  | Scheduled => "Scheduled"
  end.

(** The dict built by [parse_game].  [home], [away] and [date] hold what
    the payload held, whatever its type. *)
Record game := mk_game {
  g_league : str;
  g_home : json;
  g_away : json;
  g_score : str;
  g_status : game_status;
  g_date : json
}.

Section ParseGame.

(** [str(v)] of a decoded value that is not a string, as an f-string
    renders it: Python's own rendering. *)
Variable repr_value : json -> str.

Definition format_value (v : json) : str :=
  match v with
  | JStr s => s
  | _ => repr_value v
  end.

(** The state of the loop over the competitors (lines 135-148). *)
Record sides := mk_sides {
  home_team : json; away_team : json;
  home_score : json; away_score : json
}.

Definition sides0 : sides := mk_sides JNull JNull (JStr "0") (JStr "0").

(** The body of the loop, [None] when [comp.get] or [team_data.get]
    raises. *)
Definition competitor_step (st : sides) (comp : json) : option sides :=
  c ← as_dict comp;
  team_data ← as_dict (dict_get c "team" (JObj []));
  let team_name :=
    dict_get team_data "displayName" (dict_get team_data "name" (JStr "Unknown")) in
  let score := dict_get c "score" (JStr "0") in
  if eq_str (dict_get c "homeAway" JNull) "home"
  then Some (mk_sides team_name (away_team st) score (away_score st))
  else Some (mk_sides (home_team st) team_name (home_score st) score).

Fixpoint competitors_loop (st : sides) (comps : list json) : option sides :=
  match comps with
  | [] => Some st
  | comp :: rest => st' ← competitor_step st comp; competitors_loop st' rest
  end.

Definition status_of_name (status_name : json) : game_status :=
  if eq_str status_name "STATUS_FINAL" then Final
  else if eq_str status_name "STATUS_IN_PROGRESS" then Live
  else Scheduled.

Definition score_string (status : game_status) (st : sides) : str :=
  match status with
  | Final => format_value (away_score st) ++ ("-" : str) ++ format_value (home_score st)
  | Live => format_value (away_score st) ++ ("-" : str) ++ format_value (home_score st)
  | Scheduled => "-"
  end.

(** [parse_game]: [None] is the [None] it returns, at line 133 or from
    the [except] of line 176. *)
Definition parse_game (event : json) (league : str) : option game :=
  ev ← as_dict event;
  competition ← index0 (dict_get ev "competitions" (JArr [JObj []]));
  competition ← as_dict competition;
  let competitors := dict_get competition "competitors" (JArr []) in
  n ← py_len competitors;
  if negb (n =? 2)%nat then None
  else
    comps ← py_iter competitors;
    st ← competitors_loop sides0 comps;
    status ← as_dict (dict_get ev "status" (JObj []));
    status ← as_dict (dict_get status "type" (JObj []));
    let status_name := dict_get status "name" (JStr "Unknown") in
    let status := status_of_name status_name in
    let score_str := score_string status st in
    date ← slice10 (dict_get ev "date" (JStr ""));
    Some (mk_game (upper league) (home_team st) (away_team st)
                  score_str status date).

(** Lines 116-119: the records of the events that parse. *)
Fixpoint collect_games (events : list json) (lg : str) : list game :=
  match events with
  | [] => []
  | event :: rest =>
      match parse_game event lg with
      | Some game_info => game_info :: collect_games rest lg
      | None => collect_games rest lg
      end
  end.

(** The transport: the decoded body, or [None] for a
    [requests.RequestException]. *)
Variable http_get : str -> params -> option json.

(** The reading of [datetime.now()] in the turn of the loop for a league. *)
Variable clock : str -> datetime.

(** The turn of the loop of [fetch_games] for league [lg]; the outer
    [None] is an exception nothing catches ([data.get] on a body that is
    not a dict, or events that cannot be iterated). *)
Definition fetch_league (lg : str) (week : option Z) (date : option datetime)
    : option (list game) :=
  match APIS_get lg with
  | None => Some []
  | Some url =>
      match http_get url (request_params lg week date (clock lg)) with
      | None => Some []
      | Some data =>
          d ← as_dict data;
          events ← py_iter (dict_get d "events" (JArr []));
          Some (collect_games events lg)
      end
  end.

Fixpoint fetch_loop (lgs : list str) (week : option Z) (date : option datetime)
    (all_games : list game) : option (list game) :=
  match lgs with
  | [] => Some all_games
  | lg :: rest =>
      games ← fetch_league lg week date;
      fetch_loop rest week date (all_games ++ games)
  end.

Definition fetch_games (league : option str) (week : option Z)
    (date : option datetime) : option (list game) :=
  fetch_loop (leagues_to_fetch league) week date [].

End ParseGame.

(** ** save_to_csv *)

(** The CSV file as the rows written to it; a cell is the value handed to
    the writer.  [None] is a file that does not exist.  The file is opened
    for appending: what is written goes after the text the file holds, so
    that [content ++ rows] is what the file holds after [rows] are written
    (as rows of their own when the text ended with a line terminator, as
    every file the writer made does). *)
Definition row := list json.
Definition csv_file := option (list row).

Definition fieldnames : list str :=
  [("date" : str); ("league" : str); ("home" : str); ("away" : str);
   ("score" : str); ("status" : str)].

Definition header_row : row := map JStr fieldnames.

Definition game_row (g : game) : row :=
  [g_date g; JStr (g_league g); g_home g; g_away g; JStr (g_score g);
   JStr (status_text (g_status g))].

Definition save_to_csv (file : csv_file) (games : list game) : csv_file :=
  match games with
  | [] => file
  | _ =>
      let file_exists := bool_decide (is_Some file) in
      let content := default [] file in
      Some (content ++ (if negb file_exists then [header_row] else [])
                    ++ map game_row games)
  end.

(** ** difflib.SequenceMatcher(None, a, b).ratio() *)

(** A match [(i, j, k)]: [a[i:i+k] == b[j:j+k]]. *)
Definition block := (nat * nat * nat)%type.

(** [__chain_b], first loop: for each character of [b] the indices where it
    occurs, in increasing order. *)
Fixpoint index_chars (i : nat) (b : str) (b2j : gmap ascii (list nat))
    : gmap ascii (list nat) :=
  match b with
  | [] => b2j
  | elt :: b' => index_chars (S i) b' (<[elt := default [] (b2j !! elt) ++ [i]]> b2j)
  end.

(** [__chain_b] with [isjunk=None] and [autojunk=True]: no junk; in a [b] of
    200 characters or more, those occurring more than [n // 100 + 1] times
    are popular and lose their entry. *)
Definition chain_b (b : str) : gmap ascii (list nat) :=
  let b2j := index_chars 0 b ∅ in
  let n := length b in
  if (200 <=? n)%nat then
    let ntest := (n / 100 + 1)%nat in
    filter (fun kv => (length (snd kv) <= ntest)%nat) b2j
  else b2j.

(** [j2len.get(j-1, 0)]; there is no key [-1]. *)
Definition j2len_get_pred (j2len : gmap nat nat) (j : nat) : nat :=
  match j with
  | O => O
  | S j' => default O (j2len !! j')
  end.

(** The loop over the occurrences [j] of [a[i]] in [b]. *)
Fixpoint scan_row (j2len : gmap nat nat) (blo bhi i : nat) (js : list nat)
    (newj2len : gmap nat nat) (best : block) : gmap nat nat * block :=
  match js with
  | [] => (newj2len, best)
  | j :: js' =>
      if (j <? blo)%nat then scan_row j2len blo bhi i js' newj2len best
      else if (bhi <=? j)%nat then (newj2len, best)
      else
        let k := (j2len_get_pred j2len j + 1)%nat in
        let newj2len := <[j := k]> newj2len in
        let '(besti, bestj, bestsize) := best in
        let best := if (bestsize <? k)%nat
                    then ((i + 1 - k)%nat, (j + 1 - k)%nat, k) else best in
        scan_row j2len blo bhi i js' newj2len best
  end.

(** The loop [for i in range(alo, ahi)]. *)
Fixpoint scan_rows (a : str) (b2j : gmap ascii (list nat)) (blo bhi : nat)
    (rows : list nat) (j2len : gmap nat nat) (best : block) : block :=
  match rows with
  | [] => best
  | i :: rows' =>
      let js := match a !! i with
                | Some c => default [] (b2j !! c)
                | None => []
                end in
      let '(newj2len, best') := scan_row j2len blo bhi i js ∅ best in
      scan_rows a b2j blo bhi rows' newj2len best'
  end.

(** [while besti > alo and bestj > blo and a[besti-1] == b[bestj-1]] *)
Fixpoint extend_left (a b : str) (alo blo besti bestj bestsize : nat) : block :=
  match besti, bestj with
  | S i', S j' =>
      if (alo <? besti)%nat && (blo <? bestj)%nat
         && bool_decide (a !! i' = b !! j')
      then extend_left a b alo blo i' j' (S bestsize)
      else (besti, bestj, bestsize)
  | _, _ => (besti, bestj, bestsize)
  end.

(** [while besti+bestsize < ahi and bestj+bestsize < bhi and
    a[besti+bestsize] == b[bestj+bestsize]], with [room] the value of
    [ahi - (besti+bestsize)]. *)
Fixpoint extend_right (a b : str) (bhi besti bestj : nat) (room bestsize : nat) : nat :=
  match room with
  | O => bestsize
  | S room' =>
      if (bestj + bestsize <? bhi)%nat
         && bool_decide (a !! (besti + bestsize)%nat = b !! (bestj + bestsize)%nat)
      then extend_right a b bhi besti bestj room' (S bestsize)
      else bestsize
  end.

(** [find_longest_match(alo, ahi, blo, bhi)].  The last two loops of the
    source extend the match over junk and never run, the junk set being
    empty. *)
Definition find_longest_match (a b : str) (b2j : gmap ascii (list nat))
    (alo ahi blo bhi : nat) : block :=
  let '(besti, bestj, bestsize) :=
    scan_rows a b2j blo bhi (seq alo (ahi - alo)) ∅ (alo, blo, O) in
  let '(besti, bestj, bestsize) := extend_left a b alo blo besti bestj bestsize in
  let bestsize :=
    extend_right a b bhi besti bestj (ahi - (besti + bestsize)) bestsize in
  (besti, bestj, bestsize).

Definition range4 := (nat * nat * nat * nat)%type.

(** The loop [while queue] of [get_matching_blocks].  The head of [queue]
    is the entry [queue.pop()] takes.  The result is the blocks found and
    the entries still queued when [fuel] turns have been made. *)
Fixpoint blocks_loop (fuel : nat) (a b : str) (b2j : gmap ascii (list nat))
    (queue : list range4) (matching_blocks : list block)
    : list block * list range4 :=
  match queue with
  | [] => (matching_blocks, [])
  | (alo, ahi, blo, bhi) :: queue' =>
      match fuel with
      | O => (matching_blocks, queue)
      | S fuel' =>
          let '(i, j, k) := find_longest_match a b b2j alo ahi blo bhi in
          if (k =? 0)%nat then blocks_loop fuel' a b b2j queue' matching_blocks
          else
            let queue1 :=
              if (alo <? i)%nat && (blo <? j)%nat
              then (alo, i, blo, j) :: queue' else queue' in
            let queue2 :=
              if (i + k <? ahi)%nat && (j + k <? bhi)%nat
              then ((i + k)%nat, ahi, (j + k)%nat, bhi) :: queue1 else queue1 in
            blocks_loop fuel' a b b2j queue2 (matching_blocks ++ [(i, j, k)])
      end
  end.

(** The order of tuples. *)
Definition block_leb (x y : block) : bool :=
  let '(i1, j1, k1) := x in
  let '(i2, j2, k2) := y in
  (i1 <? i2)%nat
  || ((i1 =? i2)%nat && ((j1 <? j2)%nat || ((j1 =? j2)%nat && (k1 <=? k2)%nat))).

Definition block_le (x y : block) : Prop := block_leb x y = true.

#[global] Instance block_le_dec : RelDecision block_le.
Proof. intros x y. unfold block_le. apply _. Defined.

(** The loop that joins adjacent blocks, [(i1, j1, k1)] being the block
    held back. *)
Fixpoint collapse (i1 j1 k1 : nat) (blocks : list block) : list block :=
  match blocks with
  | [] => if (k1 =? 0)%nat then [] else [(i1, j1, k1)]
  | (i2, j2, k2) :: rest =>
      if (i1 + k1 =? i2)%nat && (j1 + k1 =? j2)%nat
      then collapse i1 j1 (k1 + k2) rest
      else (if (k1 =? 0)%nat then [] else [(i1, j1, k1)]) ++ collapse i2 j2 k2 rest
  end.

(** The measure of the loop below: [2 * (ahi - alo) + 1] summed over the
    queue. *)
Definition queue_weight (queue : list range4) : nat :=
  fold_right (fun r acc => let '(alo, ahi, _, _) := r in (2 * (ahi - alo) + 1 + acc)%nat)
             O queue.

(** Turns that empty the queue whatever the strings: a turn with a match
    lowers [2 * (ahi - alo) + 1] summed over the queue, and one without
    takes an entry away. *)
Definition blocks_fuel (a : str) : nat := (2 * length a + 2)%nat.

Definition get_matching_blocks (a b : str) : list block :=
  let la := length a in
  let lb := length b in
  let '(matching_blocks, _) :=
    blocks_loop (blocks_fuel a) a b (chain_b b) [(O, la, O, lb)] [] in
  let matching_blocks := merge_sort block_le matching_blocks in
  collapse O O O matching_blocks ++ [(la, lb, O)].

(** [ratio()]: [2.0 * matches / length], and [1.0] for two empty strings.
    The source computes in floats: the quotient of two integers, rounded
    once.  It is kept exact here; comparing it with [0.6] gives the same
    answer, since a quotient equal to 3/5 rounds to the float of [0.6] and
    one that differs from 3/5 does so by at least [1 / (5 * length)], far
    more than the rounding moves it. *)
Definition ratio (a b : str) : Q :=
  let matches := fold_right (fun t acc => (snd t + acc)%nat) O (get_matching_blocks a b) in
  let length := (length a + length b)%nat in
  match length with
  | O => 1%Q
  | _ => Qmake (2 * Z.of_nat matches) (Pos.of_nat length)
  end.

(** ** fuzzy_match and find_team_game *)

Definition fuzzy_match (name1 name2 : str) : Q :=
  let name1 := strip (lower name1) in
  let name2 := strip (lower name2) in
  ratio name1 name2.

(** [x > y] *)
Definition Qgtb (x y : Q) : bool := negb (Qle_bool x y).

Definition threshold : Q := 6 # 10.

(** Lines 237-239 and 244-246. *)
Definition team_match (team home away : str) : bool :=
  contains team home || contains team away
  || Qgtb (fuzzy_match team home) threshold
  || Qgtb (fuzzy_match team away) threshold.

(** [game['home'].lower()]: [AttributeError] unless the field is a string. *)
Definition lower_field (v : json) : option str :=
  match v with
  | JStr s => Some (lower s)
  | _ => None
  end.

(** The body of the loop of [find_team_game]: whether [game] is appended. *)
Definition game_matches (team1 : str) (team2 : option str) (home away : str) : bool :=
  if team_match team1 home away then
    match team2 with
    | Some t2 =>
        if str_truthy team2 then team_match t2 home away else true
    | None => true
    end
  else false.

Fixpoint find_loop (games : list game) (team1 : str) (team2 : option str)
    (matched : list game) : option (list game) :=
  match games with
  | [] => Some matched
  | game :: rest =>
      home ← lower_field (g_home game);
      away ← lower_field (g_away game);
      find_loop rest team1 team2
        (if game_matches team1 team2 home away then matched ++ [game] else matched)
  end.

(** [find_team_game]; [None] is the [AttributeError] of a record whose
    [home] or [away] is not a string. *)
Definition find_team_game (games : list game) (team1 : str) (team2 : option str)
    : option (list game) :=
  let team1 := strip (lower team1) in
  let team2 := if str_truthy team2 then strip <$> (lower <$> team2) else None in
  find_loop games team1 team2 [].

(** The Team Matcher on one candidate name: lines 229-239 for one of the
    two fields, the fragment normalised as at line 229 and the name lowered
    as at lines 233-234. *)
Definition accepts (fragment candidate : str) : bool :=
  let team := strip (lower fragment) in
  let name := lower candidate in
  contains team name || Qgtb (fuzzy_match team name) threshold.

(** The acceptance rule in the words of the specification: the lower-cased
    fragment inside the lower-cased candidate, or a ratio of the two
    lower-cased and trimmed strings above 0.6. *)
Definition accepts_as_specified (fragment candidate : str) : bool :=
  contains (lower fragment) (lower candidate)
  || Qgtb (ratio (strip (lower fragment)) (strip (lower candidate))) threshold.

(** A record as the data model has it: both names are strings. *)
Definition named (g : game) : Prop :=
  (exists home, g_home g = JStr home) /\ (exists away, g_away g = JStr away).

Definition name_of (v : json) : str :=
  match v with
  | JStr s => s
  | _ => []
  end.

(** The filter of [find_team_game] on a record with string names. *)
Definition selected (team1 : str) (team2 : option str) (g : game) : bool :=
  (accepts team1 (name_of (g_home g)) || accepts team1 (name_of (g_away g)))
  && match team2 with
     | Some t2 => accepts t2 (name_of (g_home g)) || accepts t2 (name_of (g_away g))
     | None => true
     end.

(** ** print_games and the callers *)

(** [s.ljust(width)], what the format [:<width] does to a string. *)
Definition ljust (width : nat) (s : str) : str :=
  s ++ repeat " "%char (width - length s).

Definition header_line : str :=
  ljust 6 "League" ++ (" " : str) ++ ljust 30 "Away" ++ (" " : str)
  ++ ljust 10 "Score" ++ (" " : str) ++ ljust 30 "Home" ++ (" " : str)
  ++ ("Status" : str).

Definition dashes : str := repeat "-"%char 90.

Section Program.

Variable repr_value : json -> str.
Variable http_get : str -> params -> option json.
Variable clock : str -> datetime.

(** [f"{v:<width}"]: a string is padded; a number is padded as [str]
    writes it, a boolean as the number it is; [None], a list and a dict
    have no such format ([TypeError]). *)
Definition format_left (width : nat) (v : json) : option str :=
  match v with
  | JStr s => Some (ljust width s)
  | JInt _ | JFloat _ => Some (ljust width (repr_value v))
  | JBool b => Some (ljust width (if b then "1" else "0"))
  | JNull | JArr _ | JObj _ => None
  end.

(** The line of line 216. *)
Definition game_line (g : game) : option str :=
  away ← format_left 30 (g_away g);
  home ← format_left 30 (g_home g);
  Some (ljust 6 (g_league g) ++ (" " : str) ++ away ++ (" " : str)
        ++ ljust 10 (g_score g) ++ (" " : str) ++ home ++ (" " : str)
        ++ status_text (g_status g)).

(** The output stream: [stdout line] tells whether the stream takes the
    line; when it does not, [print] raises ([UnicodeEncodeError]: the
    encoding of the stream has no bytes for a character of the line) and
    nothing of the line is written. *)

(** The loop of lines 215-216: the lines printed, and whether the loop
    came to its end ([false]: the [TypeError] of a format, or the stream,
    stopped it). *)
Fixpoint print_rows (stdout : str -> bool) (games : list game) : list str * bool :=
  match games with
  | [] => ([], true)
  | g :: rest =>
      match game_line g with
      | None => ([], false)
      | Some line =>
          if stdout line then
            let '(lines, ok) := print_rows stdout rest in (line :: lines, ok)
          else ([], false)
      end
  end.

Definition print_games (stdout : str -> bool) (games : list game) : list str * bool :=
  match games with
  | [] =>
      if stdout "No games found." then ([("No games found." : str)], true)
      else ([], false)
  | _ =>
      if stdout header_line then
        if stdout dashes then
          let '(lines, ok) := print_rows stdout games in
          (header_line :: dashes :: lines, ok)
        else ([header_line], false)
      else ([], false)
  end.

(** [print_games(games)] then [if games: save_to_csv(games)], as every
    caller does, on a stream that takes every line; [None] when
    [print_games] raises.  What the callers print besides is left out. *)
Definition show_and_save (games : list game) (file : csv_file) : option csv_file :=
  if snd (print_games (fun _ => true) games) then Some (save_to_csv file games)
  else None.

(** The loops of lines 445-448 and 493-496. *)
Fixpoint fetch_each (leagues : list str) (date : datetime) (all_games : list game)
    : option (list game) :=
  match leagues with
  | [] => Some all_games
  | league :: rest =>
      games ← fetch_games repr_value http_get clock (Some league) None (Some date);
      fetch_each rest date (all_games ++ games)
  end.

(** The games a turn of [interactive_mode] prints and saves. *)
Definition turn_games (a : action) : option (list game) :=
  match a with
  | AllSports date => fetch_each APIS_keys date []
  | LeagueScores leagues date => fetch_each leagues date []
  | TeamSearch tq =>
      all_games ← fetch_games repr_value http_get clock None None (Some (tq_date tq));
      find_team_game all_games (tq_team1 tq) (tq_team2 tq)
  | Goodbye | Skip | Help | UnknownCommand _ => Some []
  end.

(** What a turn does to the file; [None] is an exception, which nothing in
    the loop catches. *)
Definition turn (a : action) (file : csv_file) : option csv_file :=
  match a with
  | AllSports _ | LeagueScores _ _ | TeamSearch _ =>
      games ← turn_games a; show_and_save games file
  | Goodbye | Skip | Help | UnknownCommand _ => Some file
  end.

(** [interactive_mode] on the lines typed, each with the reading of the
    clock in its turn: the file when the loop ends, at [quit] or at the end
    of the input. *)
Fixpoint interactive_mode (inputs : list (str * datetime)) (file : csv_file)
    : option csv_file :=
  match inputs with
  | [] => Some file
  | (line, now) :: rest =>
      match interactive_step line now with
      | Goodbye => Some file
      | a => file' ← turn a file; interactive_mode rest file'
      end
  end.

(** [" ".join(args)] *)
Fixpoint join_spaces (args : list str) : str :=
  match args with
  | [] => []
  | [x] => x
  | x :: rest => x ++ (" " : str) ++ join_spaces rest
  end.

(** [main] with [sys.argv], the lines typed and the reading of the clock
    in [parse_query]. *)
Definition main (argv : list str) (inputs : list (str * datetime)) (now : datetime)
    (file : csv_file) : option csv_file :=
  match argv with
  | [] | [_] => interactive_mode inputs file
  | _ :: args =>
      let parsed := parse_query (join_spaces args) now in
      games ← fetch_games repr_value http_get clock
                (qi_league parsed) (qi_week parsed) (qi_date parsed);
      show_and_save games file
  end.

End Program.

(** A value the format [:<30] accepts. *)
Definition has_format (v : json) : Prop :=
  match v with
  | JNull | JArr _ | JObj _ => False
  | _ => True
  end.

(** A transport that answers the requests scoped by date and fails the
    others. *)
Definition dates_only_transport (body : json) (url : str) (p : params) : option json :=
  match p with
  | [(key, PDate _)] => if str_eqb key "dates" then Some body else None
  | _ => None
  end.

(** ** What the regular expressions match, stated on the text *)

(** [week\s*(\d{1,2})] matches at the head of [s] with group [ds]: the word,
    blanks, then one or two digits, two whenever two are there. *)
Definition week_match_here (s ds : str) : Prop :=
  exists ws post,
    s = ("week" : str) ++ ws ++ ds ++ post
    /\ Forall (fun c => is_space c = true) ws
    /\ Forall (fun c => is_digit c = true) ds
    /\ (length ds = 1%nat \/ length ds = 2%nat)
    /\ (length ds = 1%nat -> forall c post', post = c :: post' -> is_digit c = false).

(** The leftmost match of the week pattern in [q] has group [ds]. *)
Definition week_match (q ds : str) : Prop :=
  exists pre rest,
    q = pre ++ rest
    /\ week_match_here rest ds
    /\ forall pre1 pre2 ds', pre = pre1 ++ pre2 -> pre2 <> [] ->
         ~ week_match_here (pre2 ++ rest) ds'.

(** The six digits [m1 m2 d1 d2 y1 y2] name a day of the calendar. *)
Definition valid_mmddyy (ds : str) : Prop :=
  exists m1 m2 d1 d2 y1 y2,
    ds = [m1; m2; d1; d2; y1; y2]
    /\ let m := int_of_digits [m1; m2] in
       let d := int_of_digits [d1; d2] in
       let y := int_of_digits [y1; y2] in
       1 <= m <= 12
       /\ 1 <= d <= days_in_month (if y <=? 68 then 2000 + y else 1900 + y) m.

(** The leftmost run of six digits in [q] is [ds]. *)
Definition first_six_digits (q ds : str) : Prop :=
  exists pre post,
    q = pre ++ ds ++ post
    /\ length ds = 6%nat
    /\ Forall (fun c => is_digit c = true) ds
    /\ forall pre1 pre2, pre = pre1 ++ pre2 -> pre2 <> [] ->
         ~ Forall (fun c => is_digit c = true) (take 6 (pre2 ++ ds ++ post)).

(** No date is written in [q]: none of the three words, no run of six
    digits, no [YYYY-MM-DD]. *)
Definition no_date_token (q : str) : Prop :=
  contains "today" q = false /\ contains "yesterday" q = false
  /\ contains "tomorrow" q = false
  /\ search_digits6 q = None /\ search_iso q = None.

(** The date token of a team query [q] (lower-cased and trimmed) and the
    date it names at the moment [now]: the first of the words [today],
    [yesterday], [tomorrow] that [q] holds; failing those, the leftmost run
    of six digits when it names a day as [MMDDYY]; otherwise no token, and
    the current date. *)
Definition date_token (q : str) (now : datetime) (token : option str)
    (date : datetime) : Prop :=
  (contains "today" q = true
   /\ token = Some ("today" : str) /\ date = now)
  \/ (contains "today" q = false /\ contains "yesterday" q = true
      /\ token = Some ("yesterday" : str) /\ date = add_days now (-1))
  \/ (contains "today" q = false /\ contains "yesterday" q = false
      /\ contains "tomorrow" q = true
      /\ token = Some ("tomorrow" : str) /\ date = add_days now 1)
  \/ (contains "today" q = false /\ contains "yesterday" q = false
      /\ contains "tomorrow" q = false
      /\ exists ds, first_six_digits q ds /\ strptime_mdy ds = Some date
                    /\ token = Some ds)
  \/ (contains "today" q = false /\ contains "yesterday" q = false
      /\ contains "tomorrow" q = false
      /\ (forall ds, first_six_digits q ds -> strptime_mdy ds = None)
      /\ token = None /\ date = now).

(** ** Sample data *)

(** 2026-11-04, 12:34:56. *)
Definition sample_now : datetime := mk_datetime 739924 45296000000.

Definition sample_game (home away : str) : game :=
  mk_game "NBA" (JStr home) (JStr away) "101-99" Final (JStr "2026-11-04").

Definition sample_games : list game :=
  [ sample_game "Los Angeles Lakers" "Boston Celtics";
    sample_game "New York Knicks" "Miami Heat";
    sample_game "Boston Celtics" "Chicago Bulls" ].

(** An event as the scoreboard sends it. *)
Definition sample_competitor (side name score : str) : json :=
  JObj [("homeAway" : str, JStr side);
        ("score" : str, JStr score);
        ("team" : str, JObj [("displayName" : str, JStr name)])].

Definition sample_event (status_name : str) : json :=
  JObj [("date" : str, JStr "2026-11-04T00:30Z");
        ("competitions" : str,
         JArr [JObj [("competitors" : str,
                      JArr [sample_competitor "home" "Boston Celtics" "99";
                            sample_competitor "away" "Los Angeles Lakers" "101"])]]);
        ("status" : str,
         JObj [("type" : str, JObj [("name" : str, JStr status_name)])])].

(** An event with a single competitor. *)
Definition broken_event : json :=
  JObj [("competitions" : str,
         JArr [JObj [("competitors" : str,
                      JArr [sample_competitor "home" "Boston Celtics" "99"])]])].

Definition sample_repr (v : json) : str := "?".

(** An event whose first competition lists [competitors]; [others],
    [more] and [rest] are whatever else the competition, the list of
    competitions and the event hold. *)
Definition event_with (competitors : json) (others : list (str * json))
    (more : list json) (rest : list (str * json)) : json :=
  JObj (("competitions" : str,
         JArr (JObj (("competitors" : str, competitors) :: others) :: more)) :: rest).

(** [comp.get("homeAway") == "home"] for a competitor that is a dict. *)
Definition is_home (comp : list (str * json)) : bool :=
  eq_str (dict_get comp "homeAway" JNull) "home".

(** The dict of a competitor, as in [sample_competitor]. *)
Definition sample_side (side name score : str) : list (str * json) :=
  [("homeAway" : str, JStr side);
   ("score" : str, JStr score);
   ("team" : str, JObj [("displayName" : str, JStr name)])].

(** A transport that answers every request with the same body, and one that
    fails every request. *)
Definition constant_transport (body : json) (url : str) (p : params) : option json :=
  Some body.

Definition failing_transport (url : str) (p : params) : option json := None.

Definition sample_clock (lg : str) : datetime := sample_now.


(** A scoreboard with one finished game. *)
Definition sample_scoreboard : json :=
  JObj [("events" : str, JArr [sample_event "STATUS_FINAL"])].

(** A scoreboard whose only event marks both sides [away]. *)
Definition scoreboard_no_home : json :=
  JObj [("events" : str,
         JArr [event_with
                 (JArr [JObj (sample_side "away" "Boston Celtics" "99");
                        JObj (sample_side "away" "Los Angeles Lakers" "101")])
                 [] [] []])].

(** The number of matching characters: the sizes of the blocks, summed. *)
Definition total_size (blocks : list block) : nat :=
  fold_right (fun t acc => (snd t + acc)%nat) O blocks.

(** The rows of [a], and the columns of [b], that the queue still covers. *)
Definition queue_rows (queue : list range4) : nat :=
  fold_right (fun r acc => let '(alo, ahi, _, _) := r in (ahi - alo + acc)%nat) O queue.

Definition queue_cols (queue : list range4) : nat :=
  fold_right (fun r acc => let '(_, _, blo, bhi) := r in (bhi - blo + acc)%nat) O queue.

(** ** Lemmas on text *)

Lemma ascii_eqb_true a b : ascii_eqb a b = true <-> a = b.
Proof. unfold ascii_eqb. apply Ascii.eqb_eq. Qed.

Lemma startswith_spec p s : startswith p s = true <-> exists r, s = p ++ r.
Proof.
  revert s. induction p as [|a p IH]; intros s; simpl.
  - split; [intros _; by exists s | done].
  - destruct s as [|b s].
    + split; [done | intros [r Hr]; discriminate].
    + rewrite andb_true_iff, ascii_eqb_true, IH. split.
      * intros [-> [r ->]]. by exists r.
      * intros [r Hr]. injection Hr as -> ->. eauto.
Qed.

Lemma startswith_app p r : startswith p (p ++ r) = true.
Proof. apply startswith_spec. by exists r. Qed.

Lemma contains_spec p s : contains p s = true <-> exists l r, s = l ++ p ++ r.
Proof.
  induction s as [|c s IH]; simpl.
  - rewrite orb_false_r, startswith_spec. split.
    + intros [r Hr]. by exists [], r.
    + intros (l & r & Hs). symmetry in Hs.
      apply app_eq_nil in Hs as [-> Hs]. apply app_eq_nil in Hs as [-> ->].
      by exists [].
  - rewrite orb_true_iff, IH, startswith_spec. split.
    + intros [[r Hr] | (l & r & ->)].
      * by exists [], r.
      * by exists (c :: l), r.
    + intros (l & r & Hs). destruct l as [|x l]; simpl in Hs.
      * left. by exists r.
      * right. injection Hs as -> ->. by exists l, r.
Qed.

Lemma contains_false p s :
  contains p s = false <-> forall l r, s <> l ++ p ++ r.
Proof.
  rewrite <- not_true_iff_false, contains_spec. split.
  - intros H l r Hs. apply H. by exists l, r.
  - intros H (l & r & Hs). by apply (H l r).
Qed.

Lemma contains_infix p s l r :
  contains p s = true -> contains p (l ++ s ++ r) = true.
Proof.
  rewrite !contains_spec. intros (l' & r' & ->).
  exists (l ++ l'), (r' ++ r). by rewrite <- !app_assoc.
Qed.

Lemma contains_infix_false p s l r :
  contains p (l ++ s ++ r) = false -> contains p s = false.
Proof.
  intros H. destruct (contains p s) eqn:E; [|done].
  by rewrite (contains_infix _ _ l r E) in H.
Qed.

Lemma contains_nil s : contains [] s = true.
Proof. apply contains_spec. by exists [], s. Qed.

Lemma contains_rev p s : contains (rev p) (rev s) = contains p s.
Proof.
  apply eq_true_iff_eq. rewrite !contains_spec. split.
  - intros (l & r & Hs). exists (rev r), (rev l).
    apply (f_equal (@rev ascii)) in Hs.
    rewrite rev_involutive in Hs. rewrite Hs.
    rewrite !rev_app_distr, rev_involutive. by rewrite <- app_assoc.
  - intros (l & r & ->). exists (rev r), (rev l).
    rewrite !rev_app_distr. by rewrite <- app_assoc.
Qed.

(** *** strip *)

Lemma lstrip_split s :
  exists ws, s = ws ++ lstrip s /\ Forall (fun c => is_space c = true) ws.
Proof.
  induction s as [|c s (ws & Hs & Hws)]; simpl.
  - by exists [].
  - destruct (is_space c) eqn:E.
    + exists (c :: ws). split; [by rewrite Hs at 1 | by constructor].
    + by exists [].
Qed.

Lemma rstrip_split s :
  exists ws, s = rstrip s ++ ws /\ Forall (fun c => is_space c = true) ws.
Proof.
  unfold rstrip. destruct (lstrip_split (rev s)) as (ws & Hs & Hws).
  exists (rev ws). split.
  - apply (f_equal (@rev ascii)) in Hs.
    by rewrite rev_involutive, rev_app_distr in Hs.
  - by apply Forall_rev.
Qed.

Lemma strip_split s :
  exists l r, s = l ++ strip s ++ r
    /\ Forall (fun c => is_space c = true) l
    /\ Forall (fun c => is_space c = true) r.
Proof.
  unfold strip. destruct (lstrip_split s) as (l & Hl & Hls).
  destruct (rstrip_split (lstrip s)) as (r & Hr & Hrs).
  exists l, r. split; [|done]. by rewrite <- Hr.
Qed.

Lemma lstrip_id s :
  match s with [] => True | c :: _ => is_space c = false end -> lstrip s = s.
Proof. destruct s as [|c s]; simpl; [done | by intros ->]. Qed.

Lemma lstrip_head s :
  match lstrip s with [] => True | c :: _ => is_space c = false end.
Proof.
  induction s as [|c s IH]; simpl; [done|].
  destruct (is_space c) eqn:E; [done | by simpl].
Qed.

Lemma lstrip_lstrip s : lstrip (lstrip s) = lstrip s.
Proof. apply lstrip_id, lstrip_head. Qed.

Lemma rstrip_rstrip s : rstrip (rstrip s) = rstrip s.
Proof. unfold rstrip. by rewrite rev_involutive, lstrip_lstrip. Qed.

Lemma rstrip_head s :
  match s with [] => True | c :: _ => is_space c = false end ->
  match rstrip s with [] => True | c :: _ => is_space c = false end.
Proof.
  intros Hs. destruct (rstrip_split s) as (ws & Heq & _).
  destruct (rstrip s) as [|c t]; [done|].
  rewrite Heq in Hs. by simpl in Hs.
Qed.

Lemma strip_strip s : strip (strip s) = strip s.
Proof.
  unfold strip.
  rewrite (lstrip_id (rstrip (lstrip s))) by apply rstrip_head, lstrip_head.
  apply rstrip_rstrip.
Qed.

(** *** lower *)

Lemma is_space_lower_char c : is_space (lower_char c) = is_space c.
Proof. destruct c as [[] [] [] [] [] [] [] []]; reflexivity. Qed.

Lemma lower_char_idem c : lower_char (lower_char c) = lower_char c.
Proof. destruct c as [[] [] [] [] [] [] [] []]; reflexivity. Qed.

Lemma lower_lower s : lower (lower s) = lower s.
Proof.
  unfold lower. rewrite map_map. apply map_ext. intros c. apply lower_char_idem.
Qed.

Lemma lower_lstrip s : lower (lstrip s) = lstrip (lower s).
Proof.
  induction s as [|c s IH]; simpl; [done|].
  rewrite is_space_lower_char. destruct (is_space c); [done | reflexivity].
Qed.

Lemma lower_rstrip s : lower (rstrip s) = rstrip (lower s).
Proof.
  unfold rstrip, lower. rewrite map_rev. fold (lower (lstrip (rev s))).
  rewrite lower_lstrip. unfold lower. by rewrite map_rev.
Qed.

Lemma lower_strip s : lower (strip s) = strip (lower s).
Proof. unfold strip. by rewrite lower_rstrip, lower_lstrip. Qed.

(** Normalising twice is normalising once. *)
Lemma normalise_twice s : strip (lower (strip (lower s))) = strip (lower s).
Proof. by rewrite lower_strip, lower_lower, strip_strip. Qed.

Lemma strip_lower_strip s : strip (lower (strip s)) = strip (lower s).
Proof. by rewrite lower_strip, strip_strip. Qed.

(** *** Occurrences that survive strip and replace *)

Lemma contains_lstrip p c s :
  is_space c = false -> contains (c :: p) s = true ->
  contains (c :: p) (lstrip s) = true.
Proof.
  intros Hc. rewrite contains_spec. intros (l & r & ->).
  induction l as [|x l IH]; simpl.
  - rewrite Hc. apply contains_spec. by exists [], r.
  - destruct (is_space x); [done|].
    apply contains_spec. by exists (x :: l), r.
Qed.

Lemma contains_rstrip p c s :
  is_space c = false -> contains (p ++ [c]) s = true ->
  contains (p ++ [c]) (rstrip s) = true.
Proof.
  intros Hc H. unfold rstrip. rewrite <- contains_rev, rev_involutive.
  rewrite rev_app_distr. simpl. apply contains_lstrip; [done|].
  rewrite <- contains_rev in H. by rewrite rev_app_distr in H.
Qed.

(** A word that begins and ends with a visible character is found in the
    stripped text if it is found in the text. *)
Lemma contains_strip p s :
  match p with [] => False | c :: _ => is_space c = false end ->
  match rev p with [] => False | c :: _ => is_space c = false end ->
  contains p s = true -> contains p (strip s) = true.
Proof.
  intros Hh Hl H. unfold strip.
  destruct p as [|c p]; [done|].
  assert (H1 : contains (c :: p) (lstrip s) = true) by by apply contains_lstrip.
  destruct (rev (c :: p)) as [|d q] eqn:E; [done|].
  apply (f_equal (@rev ascii)) in E. rewrite rev_involutive in E. simpl in E.
  rewrite E in *. by apply contains_rstrip.
Qed.

Lemma remove_from_keep_prefix o old p r :
  Forall (fun x => x <> o) p ->
  remove_from (o :: old) 0 (p ++ r) = p ++ remove_from (o :: old) 0 r.
Proof.
  induction 1 as [|x p Hx Hp IH]; [done|].
  cbn [app remove_from startswith].
  destruct (ascii_eqb o x) eqn:E.
  - apply ascii_eqb_true in E. congruence.
  - simpl. by rewrite IH.
Qed.

(** Taking out every [old] keeps an occurrence of [p] when the first
    character of [p] is not in [old] and the first of [old] is not in [p]:
    no occurrence of [old] can then overlap one of [p]. *)
Lemma contains_remove_from o old c p r l k :
  c ∉ o :: old -> o ∉ c :: p ->
  Forall (fun x => x ∈ o :: old) (take k (l ++ (c :: p) ++ r)) ->
  contains (c :: p) (remove_from (o :: old) k (l ++ (c :: p) ++ r)) = true.
Proof.
  intros Hc Ho. remember ((c :: p) ++ r) as t eqn:Ht.
  revert k. induction l as [|x l IH]; intros k Hk.
  - subst t. destruct k as [|k].
    + rewrite app_nil_l, (remove_from_keep_prefix o old (c :: p) r).
      * apply contains_spec. by exists [], (remove_from (o :: old) 0 r).
      * apply Forall_forall. intros y Hy ->. by apply Ho, list_elem_of_In.
    + simpl in Hk. by inversion Hk.
  - destruct k as [|k].
    + cbn [app remove_from].
      destruct (startswith (o :: old) (x :: l ++ t)) eqn:E.
      * apply IH.
        apply startswith_spec in E as [u Hu]. simpl in Hu.
        injection Hu as -> Hu. rewrite Hu.
        replace (length (o :: old) - 1)%nat with (length old) by (simpl; lia).
        rewrite take_app_length. apply Forall_forall. intros y Hy.
        by apply list_elem_of_further.
      * specialize (IH O (List.Forall_nil _)).
        apply (contains_infix _ _ [x] []) in IH.
        by rewrite app_nil_r in IH.
    + simpl. apply IH. simpl in Hk. by inversion Hk.
Qed.

Lemma contains_remove_all o old c p s :
  c ∉ o :: old -> o ∉ c :: p ->
  contains (c :: p) s = true ->
  contains (c :: p) (remove_all (o :: old) s) = true.
Proof.
  intros Hc Ho. rewrite contains_spec. intros (l & r & Hs).
  unfold remove_all. rewrite Hs. by apply contains_remove_from.
Qed.

(** *** split *)

Lemma startswith_length p s : startswith p s = true -> (length p <= length s)%nat.
Proof.
  intros [r ->]%startswith_spec. rewrite length_app. lia.
Qed.

Lemma contains_short p s : (length s < length p)%nat -> contains p s = false.
Proof.
  intros H. apply contains_false. intros l r ->.
  rewrite !length_app in H. lia.
Qed.

Lemma startswith_app_l p u v :
  startswith p u = true -> startswith p (u ++ v) = true.
Proof.
  intros [r ->]%startswith_spec. apply startswith_spec.
  exists (r ++ v). by rewrite app_assoc.
Qed.

Lemma startswith_app_inv p u v :
  (length p <= length u)%nat -> startswith p (u ++ v) = true ->
  startswith p u = true.
Proof.
  revert u. induction p as [|a p IH]; intros u Hlen; [done|].
  destruct u as [|b u]; simpl in *; [lia|].
  rewrite !andb_true_iff. intros [? ?]. split; [done|].
  apply IH; [lia | done].
Qed.

Lemma length_removelast (p : str) : p <> [] -> length (removelast p) = (length p - 1)%nat.
Proof.
  intros Hp. destruct (exists_last Hp) as (q & c & ->).
  rewrite removelast_last, length_app. simpl. lia.
Qed.

Lemma split_from_skip sep k s :
  split_from sep k s = split_from sep 0 (drop k s).
Proof.
  revert k. induction s as [|c s IH]; intros k.
  - by destruct k.
  - destruct k as [|k]; [done|]. simpl. apply IH.
Qed.

Lemma split_no_sep sep s :
  sep <> [] -> contains sep s = false -> split sep s = [s].
Proof.
  intros Hsep. unfold split. induction s as [|c s IH]; [done|].
  simpl. intros [H1 H2]%orb_false_iff. rewrite H1.
  by rewrite (IH H2).
Qed.

(** Splitting at the first separator. *)
Lemma split_first sep left tail :
  sep <> [] -> contains sep (left ++ removelast sep) = false ->
  split sep (left ++ sep ++ tail) = left :: split sep tail.
Proof.
  intros Hsep. unfold split. induction left as [|x left IH]; intros Hno.
  - destruct sep as [|c sep]; [done|].
    pose proof (startswith_app (c :: sep) tail) as E. cbn [app] in E.
    cbn [app split_from]. rewrite E, split_from_skip.
    replace (length (c :: sep) - 1)%nat with (length sep) by (simpl; lia).
    by rewrite drop_app_length.
  - cbn [app split_from].
    assert (E : startswith sep (x :: left ++ sep ++ tail) = false).
    { destruct (startswith sep (x :: left ++ sep ++ tail)) eqn:E; [|done].
      assert (Hs : sep = removelast sep ++ [List.last sep "x"%char])
        by by apply app_removelast_last.
      rewrite Hs in E at 2.
      change (x :: left ++ (removelast sep ++ [List.last sep "x"%char]) ++ tail)
        with ((x :: left) ++ (removelast sep ++ [List.last sep "x"%char]) ++ tail) in E.
      rewrite <- !app_assoc, app_assoc in E.
      apply startswith_app_inv in E.
      - assert (contains sep ((x :: left) ++ removelast sep) = true) as Hc.
        { apply contains_spec. apply startswith_spec in E as [r Hr].
          exists [], r. by rewrite Hr. }
        congruence.
      - rewrite length_app, length_removelast by done. simpl.
        destruct sep; [done | simpl; lia]. }
    rewrite E. simpl in Hno. apply orb_false_iff in Hno as [_ Hno].
    by rewrite (IH Hno).
Qed.

(** A text that holds the separator splits around its first occurrence. *)
Lemma first_occurrence sep s :
  sep <> [] -> contains sep s = true ->
  exists left tail,
    s = left ++ sep ++ tail /\ contains sep (left ++ removelast sep) = false.
Proof.
  intros Hsep. induction s as [|c s IH]; simpl.
  - rewrite orb_false_r. intros H%startswith_length.
    destruct sep; [done | simpl in H; lia].
  - destruct (startswith sep (c :: s)) eqn:E.
    + intros _. apply startswith_spec in E as [r Hr].
      exists [], r. split; [done|]. apply contains_short.
      rewrite app_nil_l, length_removelast by done. destruct sep; [done | simpl; lia].
    + simpl. intros (left & tail & -> & Hno)%IH.
      exists (c :: left), tail. split; [done|].
      simpl. rewrite Hno, orb_false_r.
      destruct (startswith sep (c :: left ++ removelast sep)) eqn:E'; [|done].
      apply (startswith_app_l _ _ ([List.last sep "x"%char] ++ tail)) in E'.
      change (c :: left ++ removelast sep) with ((c :: left) ++ removelast sep) in E'.
      rewrite <- app_assoc, (app_assoc (removelast sep)) in E'.
      rewrite <- app_removelast_last in E' by done.
      simpl in E'. congruence.
Qed.

(** The first part of a split is the text up to the first separator, or
    the whole text. *)
Lemma split_head sep s :
  sep <> [] ->
  exists mid rest,
    s = mid ++ rest
    /\ nth 0 (split sep s) [] = mid
    /\ ((rest = [] /\ contains sep mid = false)
        \/ (startswith sep rest = true
            /\ contains sep (mid ++ removelast sep) = false)).
Proof.
  intros Hsep. destruct (contains sep s) eqn:E.
  - destruct (first_occurrence sep s Hsep E) as (left & tail & -> & Hno).
    exists left, (sep ++ tail). rewrite split_first by done.
    split; [done|]. split; [done|]. right. split; [apply startswith_app | done].
  - exists s, []. rewrite split_no_sep, app_nil_r by done.
    split; [done|]. split; [done|]. by left.
Qed.

Lemma split_length sep s : (1 <= length (split sep s))%nat.
Proof.
  enough (H : forall k, (1 <= length (split_from sep k s))%nat) by apply H.
  induction s as [|c s IH]; intros k; simpl; [lia|].
  destruct k as [|k]; [|apply IH].
  destruct (startswith sep (c :: s)); [simpl; lia|].
  specialize (IH O). destruct (split_from sep 0 s); simpl in *; lia.
Qed.

(** The two team fragments when the text holds the separator: the text
    before its first occurrence, and the text from there to its next
    occurrence or to the end. *)
Lemma teams_of_split sep q :
  sep <> [] -> contains sep q = true ->
  exists left mid rest,
    q = left ++ sep ++ mid ++ rest
    /\ contains sep (left ++ removelast sep) = false
    /\ ((rest = [] /\ contains sep mid = false)
        \/ (startswith sep rest = true
            /\ contains sep (mid ++ removelast sep) = false))
    /\ teams_of_parts (split sep q) = (strip left, Some (strip mid)).
Proof.
  intros Hsep Hq.
  destruct (first_occurrence sep q Hsep Hq) as (left & tail & -> & Hno).
  destruct (split_head sep tail Hsep) as (mid & rest & -> & Hmid & Hrest).
  exists left, mid, rest. split; [done|]. split; [done|]. split; [done|].
  rewrite split_first by done. unfold teams_of_parts.
  cbn [nth length]. rewrite Hmid.
  pose proof (split_length sep (mid ++ rest)) as Hl.
  destruct (1 <? S (length (split sep (mid ++ rest))))%nat eqn:E; [done|].
  apply Nat.ltb_ge in E. lia.
Qed.

(** *** The regular expressions *)

Lemma digit_not_space c : is_digit c = true -> is_space c = false.
Proof. destruct c as [[] [] [] [] [] [] [] []]; (reflexivity || discriminate). Qed.

Lemma lstrip_spaces ws t :
  Forall (fun c => is_space c = true) ws -> lstrip (ws ++ t) = lstrip t.
Proof. induction 1 as [|c ws Hc _ IH]; simpl; [done | by rewrite Hc]. Qed.

Lemma week_at_spec s ds : week_at s = Some ds <-> week_match_here s ds.
Proof.
  unfold week_at, week_match_here. split.
  - destruct (startswith "week" s) eqn:E; [|done].
    apply startswith_spec in E as [r ->].
    change (drop 4 (("week" : str) ++ r)) with r.
    destruct (lstrip_split r) as (ws & Hr & Hws).
    destruct (lstrip r) as [|d1 t]; [done|].
    destruct (is_digit d1) eqn:E1; [|done].
    destruct t as [|d2 t].
    + intros [= <-]. exists ws, []. rewrite Hr at 1.
      repeat split; auto. intros _ c post' [=].
    + destruct (is_digit d2) eqn:E2; intros [= <-].
      * exists ws, t. rewrite Hr at 1. repeat split; auto. simpl. lia.
      * exists ws, (d2 :: t). rewrite Hr at 1. repeat split; auto.
        intros _ c post' [= <- _]. done.
  - intros (ws & post & -> & Hws & Hds & Hlen & Hpost).
    rewrite startswith_app.
    change (drop 4 (("week" : str) ++ ws ++ ds ++ post)) with (ws ++ ds ++ post).
    rewrite lstrip_spaces by done.
    destruct ds as [|d1 ds]; [simpl in Hlen; lia|].
    inversion Hds as [|? ? Hd1 Hds']; subst.
    cbn [app lstrip]. rewrite (digit_not_space _ Hd1), Hd1.
    destruct ds as [|d2 ds].
    + destruct post as [|c post']; [done|].
      simpl. by rewrite (Hpost eq_refl c post' eq_refl).
    + destruct ds; [|simpl in Hlen; lia].
      inversion Hds' as [|? ? Hd2 _]; subst. simpl. by rewrite Hd2.
Qed.

Lemma search_week_unfold s :
  search_week s =
  match week_at s with
  | Some g => Some g
  | None => match s with [] => None | _ :: s' => search_week s' end
  end.
Proof. by destruct s. Qed.

(** The search returns the group of the leftmost match. *)
Lemma search_week_spec q ds : week_match q ds -> search_week q = Some ds.
Proof.
  intros (pre & rest & -> & Hm & Hleft).
  induction pre as [|x pre IH].
  - rewrite search_week_unfold. apply week_at_spec in Hm. simpl. by rewrite Hm.
  - rewrite search_week_unfold.
    destruct (week_at ((x :: pre) ++ rest)) as [ds'|] eqn:E.
    + apply week_at_spec in E. by destruct (Hleft [] (x :: pre) ds').
    + simpl. apply IH. intros pre1 pre2 ds' -> Hne.
      by apply (Hleft (x :: pre1) pre2 ds').
Qed.

Lemma search_digits6_unfold s :
  search_digits6 s =
  if (length (take 6 s) =? 6)%nat && forallb is_digit (take 6 s)
  then Some (take 6 s)
  else match s with [] => None | _ :: s' => search_digits6 s' end.
Proof. by destruct s. Qed.

Lemma forallb_digits s :
  forallb is_digit s = true <-> Forall (fun c => is_digit c = true) s.
Proof.
  rewrite forallb_forall, Forall_forall. split; intros H x Hx; apply H.
  - by apply list_elem_of_In.
  - by apply list_elem_of_In.
Qed.

(** The search returns the leftmost run of six digits. *)
Lemma search_digits6_spec q ds : first_six_digits q ds -> search_digits6 q = Some ds.
Proof.
  intros (pre & post & -> & Hlen & Hds & Hleft).
  induction pre as [|x pre IH].
  - rewrite search_digits6_unfold, app_nil_l.
    rewrite <- Hlen, take_app_length, Hlen.
    apply forallb_digits in Hds. by rewrite Hds.
  - rewrite search_digits6_unfold.
    destruct (forallb is_digit (take 6 ((x :: pre) ++ ds ++ post))) eqn:E.
    + apply forallb_digits in E. by destruct (Hleft [] (x :: pre)).
    + rewrite andb_false_r. simpl. apply IH. intros pre1 pre2 -> Hne.
      by apply (Hleft (x :: pre1) pre2).
Qed.

(** [strptime] refuses six digits that name no day. *)
Lemma strptime_mdy_invalid ds :
  length ds = 6%nat -> ~ valid_mmddyy ds -> strptime_mdy ds = None.
Proof.
  intros Hlen Hinv.
  destruct ds as [|m1 [|m2 [|d1 [|d2 [|y1 [|y2 [|? ?]]]]]]]; try discriminate.
  unfold strptime_mdy.
  destruct (forallb is_digit [m1; m2; d1; d2; y1; y2]); [|done].
  set (m := int_of_digits [m1; m2]). set (d := int_of_digits [d1; d2]).
  set (y := int_of_digits [y1; y2]).
  destruct ((1 <=? m) && (m <=? 12) && (1 <=? d) && (d <=? 31)) eqn:E; [|done].
  unfold make_date.
  set (yy := if y <=? 68 then 2000 + y else 1900 + y).
  destruct ((1 <=? yy) && (yy <=? 9999) && (1 <=? m) && (m <=? 12)
            && (1 <=? d) && (d <=? days_in_month yy m)) eqn:E'; [|done].
  destruct Hinv. exists m1, m2, d1, d2, y1, y2. split; [done|].
  fold m d y. cbv zeta. fold yy.
  repeat (apply andb_true_iff in E' as [E' ?]). lia.
Qed.

Lemma search_week_match q ds : search_week q = Some ds -> week_match q ds.
Proof.
  induction q as [|x q IH]; rewrite search_week_unfold.
  - destruct (week_at []) as [g|] eqn:E; [|done].
    intros [= ->]. exists [], []. repeat split; [by apply week_at_spec|].
    intros pre1 pre2 ds' Hp Hne. symmetry in Hp.
    apply app_eq_nil in Hp as [_ ->]. done.
  - destruct (week_at (x :: q)) as [g|] eqn:E.
    + intros [= ->]. exists [], (x :: q). repeat split; [by apply week_at_spec|].
      intros pre1 pre2 ds' Hp Hne. symmetry in Hp.
      apply app_eq_nil in Hp as [_ ->]. done.
    + intros (pre & rest & -> & Hm & Hleft)%IH.
      exists (x :: pre), rest. repeat split; [done|].
      intros pre1 pre2 ds' Hp Hne Hm'.
      destruct pre1 as [|y pre1]; simpl in Hp.
      * subst pre2. apply week_at_spec in Hm'. simpl in Hm'. congruence.
      * injection Hp as -> ->. by apply (Hleft pre1 pre2 ds').
Qed.


Lemma find_nothing {A} (f : A -> bool) (l : list A) :
  List.find f l = None <-> Forall (fun y => f y = false) l.
Proof.
  induction l as [|y l IH]; simpl.
  - split; auto.
  - destruct (f y) eqn:E.
    + split; [done | intros H; inversion H; congruence].
    + rewrite IH. split; [intros; by constructor | intros H; by inversion H].
Qed.

(** ** Persistence *)



(** ** Week queries *)











(** ** Leagues *)

Lemma contains_remove_score c p s :
  c ∉ ("score" : str) -> "s"%char ∉ c :: p ->
  contains (c :: p) s = true ->
  contains (c :: p) (remove_all "score" s) = true.
Proof. exact (contains_remove_all "s" ["c"; "o"; "r"; "e"]%char c p s). Qed.

(** A league name in a text is still there once [score] is taken out and
    the text is stripped: it shares no first letter with [score], holds no
    [s] and no blank. *)
Lemma league_survives lg s :
  lg ∈ APIS_keys -> contains lg s = true ->
  contains lg (strip (remove_all "score" s)) = true.
Proof.
  intros Hlg Hs.
  assert (Hcases : lg = ("nba" : str) \/ lg = ("nfl" : str) \/ lg = ("nhl" : str)
                   \/ lg = ("ncaab" : str) \/ lg = ("ncaaf" : str)).
  { unfold APIS_keys in Hlg. cbn in Hlg.
    repeat (apply elem_of_cons in Hlg as [->|Hlg]; [tauto|]).
    by apply elem_of_nil in Hlg. }
  destruct Hcases as [->|[->|[->|[->| ->]]]];
    (apply contains_strip; [reflexivity | reflexivity |];
     apply contains_remove_score;
     [by apply (bool_decide_unpack _) | by apply (bool_decide_unpack _) | exact Hs]).
Qed.

Lemma filter_none {A} (P : A -> Prop) `{!forall x, Decision (P x)} (l : list A) :
  Forall (fun x => ~ P x) l -> filter P l = [].
Proof.
  induction 1 as [|x l Hx _ IH]; [done|]. by rewrite filter_cons_False.
Qed.

(** C1, the code against the claim: [nfl, nba score today] gives the
    leagues in the order of the table, [nba] before [nfl], not in the order
    of the text. *)
Lemma mention_order_counterexample :
  lq_leagues (parse_multi_league_query "nfl, nba score today" sample_now)
    = [("nba" : str); ("nfl" : str)]
  /\ lq_leagues (parse_multi_league_query "nfl, nba score today" sample_now)
     <> [("nfl" : str); ("nba" : str)].
Proof. split; [reflexivity | discriminate]. Qed.

(** C1 as amended: the leagues of a multi-league text are the names of the
    table found in the text once lower-cased, stripped and rid of the word
    [score]; every name found in the lower-cased text is among them; and
    they come in the order of the table, whatever their order in the
    text. *)
Theorem leagues_in_table_order (query : str) (now : datetime) :
  let leagues := lq_leagues (parse_multi_league_query query now) in
  (forall lg,
     lg ∈ leagues <->
     lg ∈ APIS_keys
     /\ contains lg (strip (remove_all "score" (strip (lower query)))) = true)
  /\ (forall lg,
        lg ∈ APIS_keys -> contains lg (lower query) = true -> lg ∈ leagues)
  /\ sublist leagues APIS_keys
  /\ lq_leagues (parse_multi_league_query "nba, nfl score today" now)
     = [("nba" : str); ("nfl" : str)]
  /\ lq_leagues (parse_multi_league_query "nfl, nba score today" now)
     = [("nba" : str); ("nfl" : str)].
Proof.
  cbv zeta. unfold parse_multi_league_query. cbn [lq_leagues].
  split; [|split; [|split; [|split]]].
  - intros lg. rewrite list_elem_of_filter. tauto.
  - intros lg Hlg Hin. apply list_elem_of_filter. split; [|done].
    apply league_survives; [done|].
    assert (Hcases : lg = ("nba" : str) \/ lg = ("nfl" : str) \/ lg = ("nhl" : str)
                     \/ lg = ("ncaab" : str) \/ lg = ("ncaaf" : str)).
    { unfold APIS_keys in Hlg. cbn in Hlg.
      repeat (apply elem_of_cons in Hlg as [->|Hlg]; [tauto|]).
      by apply elem_of_nil in Hlg. }
    destruct Hcases as [->|[->|[->|[->| ->]]]];
      by apply contains_strip.
  - apply sublist_filter.
  - reflexivity.
  - reflexivity.
Qed.

(** ** The two entry points *)

(** C6, the code against the claim: [help] holds no separator, no shortcut
    and no league name, and the interactive mode answers it with the help
    text; [nscoreba] holds none either, and the interactive mode, which
    looks for leagues after taking [score] out, fetches the [nba] scores. *)
Lemma unknown_command_counterexample :
  (contains " vs " "help" = false /\ contains " v " "help" = false
   /\ contains "all sports" "help" = false /\ contains "all score" "help" = false
   /\ Forall (fun lg => contains lg "help" = false) APIS_keys
   /\ interactive_step "help" sample_now = Help)
  /\ (contains " vs " "nscoreba" = false /\ contains " v " "nscoreba" = false
      /\ contains "all sports" "nscoreba" = false
      /\ contains "all score" "nscoreba" = false
      /\ Forall (fun lg => contains lg "nscoreba" = false) APIS_keys
      /\ interactive_step "nscoreba" sample_now
         = LeagueScores [("nba" : str)] sample_now).
Proof. repeat split; repeat constructor. Qed.

(** C6 as amended: a line that is not empty, is none of [quit], [exit],
    [q] and [help], and holds no team separator, no shortcut and, once the
    word [score] is taken out, no league name, is an unknown command for
    the interactive mode, which fetches nothing; [parse_query] finds no
    league in it either, which [fetch_games] reads as all leagues, and sets
    the current date when the text holds no date and no week. *)
Theorem modes_differ_without_league (line : str) (now : datetime) :
  strip line <> [] ->
  lower (strip line)
    ∉ [("quit" : str); ("exit" : str); ("q" : str); ("help" : str)] ->
  contains " vs " (lower (strip line)) = false ->
  contains " v " (lower (strip line)) = false ->
  contains "all sports" (lower (strip line)) = false ->
  contains "all score" (lower (strip line)) = false ->
  Forall (fun lg =>
            contains lg (strip (remove_all "score" (strip (lower line)))) = false)
         APIS_keys ->
  interactive_step line now = UnknownCommand (strip line)
  /\ fetch_calls (interactive_step line now) = []
  /\ qi_league (parse_query line now) = None
  /\ leagues_to_fetch (qi_league (parse_query line now)) = APIS_keys
  /\ (no_date_token (strip (lower line)) ->
      search_week (strip (lower line)) = None ->
      parse_query line now = mk_query_intent None None (Some now)).
Proof.
  intros Hne Hctl Hvs Hv Hall1 Hall2 Hlg.
  assert (Hstep : interactive_step line now = UnknownCommand (strip line)).
  { unfold interactive_step. destruct (strip line) as [|c u] eqn:Hu; [done|].
    rewrite bool_decide_eq_false_2
      by (intros Hq; apply Hctl; apply list_elem_of_In in Hq;
          apply list_elem_of_In; simpl in *; tauto).
    assert (E : str_eqb (lower (c :: u)) "help" = false).
    { unfold str_eqb. apply bool_decide_eq_false_2. intros Hq. apply Hctl.
      rewrite Hq. by apply (bool_decide_unpack _). }
    rewrite E, Hall1, Hall2, Hvs, Hv. cbn [orb].
    unfold parse_multi_league_query. cbn [lq_leagues lq_date].
    rewrite <- Hu, strip_lower_strip.
    rewrite filter_none; [done|].
    eapply Forall_impl; [exact Hlg|]. intros lg H. cbv beta in H. congruence. }
  assert (Hleague : qi_league (parse_query line now) = None).
  { unfold parse_query. cbn [qi_league]. apply find_nothing.
    apply Forall_forall. intros lg Hin.
    destruct (contains lg (strip (lower line))) eqn:E; [|done].
    apply (league_survives lg) in E; [|done].
    rewrite Forall_forall in Hlg. rewrite (Hlg lg Hin) in E. done. }
  split; [done|]. split; [by rewrite Hstep|]. split; [done|].
  split; [by rewrite Hleague|].
  intros (Ht & Hy & Hm & H6 & Hiso) Hweek.
  unfold parse_query in *. cbn [qi_league] in Hleague.
  unfold mmddyy_date, iso_date.
  by rewrite Hleague, Hweek, Ht, Hy, Hm, H6, Hiso.
Qed.

Lemma modes_differ_without_league_witness :
  strip "scores please" <> []
  /\ interactive_step "scores please" sample_now = UnknownCommand "scores please"
  /\ parse_query "scores please" sample_now
     = mk_query_intent None None (Some sample_now).
Proof.
  split; [discriminate|].
  destruct (modes_differ_without_league "scores please" sample_now)
    as (H1 & _ & _ & _ & H5);
    [ discriminate | by apply (bool_decide_unpack _)
    | reflexivity | reflexivity | reflexivity | reflexivity
    | repeat constructor | ].
  split; [exact H1|]. apply H5; [repeat split | reflexivity].
Defined.

(** ** Dates that do not exist *)

Lemma search_digits6_first q ds : search_digits6 q = Some ds -> first_six_digits q ds.
Proof.
  induction q as [|x q IH]; rewrite search_digits6_unfold.
  - simpl. done.
  - destruct ((length (take 6 (x :: q)) =? 6)%nat
              && forallb is_digit (take 6 (x :: q))) eqn:E.
    + intros [= <-]. apply andb_true_iff in E as [E1 E2].
      apply Nat.eqb_eq in E1. apply forallb_digits in E2.
      exists [], (drop 6 (x :: q)). split; [|split; [done|split; [done|]]].
      * symmetry. exact (take_drop 6 (x :: q)).
      * intros pre1 pre2 Hp Hne. symmetry in Hp.
        apply app_eq_nil in Hp as [_ ->]. done.
    + intros (pre & post & -> & Hlen & Hds & Hleft)%IH.
      exists (x :: pre), post. split; [done|]. split; [done|]. split; [done|].
      intros pre1 pre2 Hp Hne Hd.
      destruct pre1 as [|y pre1]; simpl in Hp.
      * subst pre2. apply forallb_digits in Hd.
        change ((x :: pre) ++ ds ++ post) with (x :: pre ++ ds ++ post) in Hd.
        rewrite Hd, andb_true_r in E. apply Nat.eqb_neq in E. apply E.
        rewrite length_take. cbn [length]. rewrite !length_app. lia.
      * injection Hp as -> ->. by apply (Hleft pre1 pre2).
Qed.

Lemma tq_date_text query now :
  tq_date (parse_team_query query now) = fst (team_query_text query now).
Proof.
  unfold parse_team_query. destruct (team_query_text query now) as [date q].
  destruct (contains " vs " q).
  - by destruct (teams_of_parts (split " vs " q)).
  - destruct (contains " v " q); [|done].
    by destruct (teams_of_parts (split " v " q)).
Qed.

(** C7, the code against the claim: [023199] is no day of the calendar and
    is the only date-like content of [nfl week 5 023199], yet [parse_query]
    leaves the date absent there instead of setting the current date. *)
Lemma invalid_date_counterexample :
  first_six_digits (strip (lower "nfl week 5 023199")) "023199"
  /\ ~ valid_mmddyy "023199"
  /\ qi_date (parse_query "nfl week 5 023199" sample_now) = None
  /\ qi_date (parse_query "nfl week 5 023199" sample_now) <> Some sample_now.
Proof.
  split; [|split; [|split; [reflexivity | discriminate]]].
  - apply search_digits6_first. reflexivity.
  - intros (m1 & m2 & d1 & d2 & y1 & y2 & [= <- <- <- <- <- <-] & _ & Hd).
    vm_compute in Hd. destruct Hd as [_ Hd]. by apply Hd.
Qed.

(** C7 as amended: when the text holds none of the three words and no
    [YYYY-MM-DD], and its leftmost run of six digits names no day of the
    calendar, the run is dropped without an error: [parse_team_query] sets
    the current date, and so does [parse_query] unless it found a week
    number other than zero, in which case it leaves the date absent. *)
Theorem invalid_six_digits_fall_through (query : str) (now : datetime) (ds : str) :
  contains "today" (strip (lower query)) = false ->
  contains "yesterday" (strip (lower query)) = false ->
  contains "tomorrow" (strip (lower query)) = false ->
  first_six_digits (strip (lower query)) ds ->
  ~ valid_mmddyy ds ->
  search_iso (strip (lower query)) = None ->
  tq_date (parse_team_query query now) = now
  /\ qi_date (parse_query query now)
     = (if week_truthy (qi_week (parse_query query now)) then None else Some now).
Proof.
  intros Ht Hy Hm Hds Hinv Hiso.
  assert (Hlen : length ds = 6%nat) by (by destruct Hds as (? & ? & _ & ? & _)).
  apply search_digits6_spec in Hds.
  pose proof (strptime_mdy_invalid ds Hlen Hinv) as Hparse.
  split.
  - rewrite tq_date_text. unfold team_query_text.
    by rewrite Ht, Hy, Hm, Hds, Hparse.
  - unfold parse_query, mmddyy_date, iso_date. cbn [qi_date qi_week].
    rewrite Ht, Hy, Hm, Hds, Hparse, Hiso. cbn [date_truthy negb andb].
    by destruct (week_truthy _).
Qed.

Lemma invalid_six_digits_fall_through_witness :
  first_six_digits (strip (lower "lakers vs celtics 023199")) "023199"
  /\ ~ valid_mmddyy "023199"
  /\ tq_date (parse_team_query "lakers vs celtics 023199" sample_now) = sample_now
  /\ qi_date (parse_query "lakers vs celtics 023199" sample_now) = Some sample_now.
Proof.
  assert (H6 : first_six_digits (strip (lower "lakers vs celtics 023199")) "023199")
    by (apply search_digits6_first; reflexivity).
  assert (Hinv : ~ valid_mmddyy "023199").
  { intros (m1 & m2 & d1 & d2 & y1 & y2 & [= <- <- <- <- <- <-] & _ & Hd).
    vm_compute in Hd. destruct Hd as [_ Hd]. by apply Hd. }
  split; [exact H6|]. split; [exact Hinv|].
  exact (invalid_six_digits_fall_through "lakers vs celtics 023199" sample_now
           "023199" eq_refl eq_refl eq_refl H6 Hinv eq_refl).
Defined.

(** ** Team queries *)

(** C2, the code against the claim: with two separators the second team is
    the text between them, not everything to the right of the first. *)
Lemma second_separator_counterexample :
  tq_team1 (parse_team_query "a vs b vs c" sample_now) = ("a" : str)
  /\ tq_team2 (parse_team_query "a vs b vs c" sample_now) = Some ("b" : str)
  /\ tq_team2 (parse_team_query "a vs b vs c" sample_now) <> Some ("b vs c" : str).
Proof. split; [reflexivity|]. split; [reflexivity | discriminate]. Qed.

Lemma team_query_text_shape query now :
  exists token,
    snd (team_query_text query now)
    = strip (remove_all "score" (remove_all token (strip (lower query))))
    /\ (token = [] \/ contains token (strip (lower query)) = true).
Proof.
  unfold team_query_text.
  destruct (contains "today" (strip (lower query))) eqn:Ht;
    [exists ("today" : str); by auto|].
  destruct (contains "yesterday" (strip (lower query))) eqn:Hy;
    [exists ("yesterday" : str); by auto|].
  destruct (contains "tomorrow" (strip (lower query))) eqn:Hm;
    [exists ("tomorrow" : str); by auto|].
  destruct (search_digits6 (strip (lower query))) as [ds|] eqn:Hd;
    [|exists []; by auto].
  destruct (strptime_mdy ds); [|exists []; by auto].
  exists ds. split; [done|]. right.
  apply search_digits6_first in Hd as (pre & post & Hq & _).
  apply contains_spec. by exists pre, post.
Qed.

Lemma team_query_text_token query now token date :
  date_token (strip (lower query)) now token date ->
  team_query_text query now
  = (date,
     strip (remove_all "score"
              (match token with
               | Some t => remove_all t (strip (lower query))
               | None => strip (lower query)
               end))).
Proof.
  unfold team_query_text.
  intros [H | [H | [H | [H | H]]]].
  - destruct H as (Ht & -> & ->). by rewrite Ht.
  - destruct H as (Ht & Hy & -> & ->). by rewrite Ht, Hy.
  - destruct H as (Ht & Hy & Hm & -> & ->). by rewrite Ht, Hy, Hm.
  - destruct H as (Ht & Hy & Hm & ds & Hd & Hs & ->).
    rewrite Ht, Hy, Hm. apply search_digits6_spec in Hd. by rewrite Hd, Hs.
  - destruct H as (Ht & Hy & Hm & Hd & -> & ->). rewrite Ht, Hy, Hm.
    destruct (search_digits6 (strip (lower query))) as [ds|] eqn:E; [|done].
    apply search_digits6_first in E. by rewrite (Hd ds E).
Qed.

(** Every text has a date token, or none, and a date. *)
Lemma date_token_total q now : exists token date, date_token q now token date.
Proof.
  unfold date_token.
  destruct (contains "today" q) eqn:Ht; [by eexists _, _; left|].
  destruct (contains "yesterday" q) eqn:Hy; [by eexists _, _; right; left|].
  destruct (contains "tomorrow" q) eqn:Hm; [by eexists _, _; right; right; left|].
  destruct (search_digits6 q) as [ds|] eqn:Hd.
  - destruct (strptime_mdy ds) as [d|] eqn:Hs.
    + exists (Some ds), d. do 3 right. left. repeat split.
      exists ds. by apply search_digits6_first in Hd.
    + exists None, now. do 4 right. repeat split.
      intros ds' Hds'. apply search_digits6_spec in Hds'. congruence.
  - exists None, now. do 4 right. repeat split.
    intros ds' Hds'. apply search_digits6_spec in Hds'. congruence.
Qed.

(** C2 as amended: the team-query parser lower-cases and trims the text,
    takes out of it every occurrence of the date token the date is read
    from (the first of [today], [yesterday], [tomorrow] that the text
    holds; failing those, the leftmost run of six digits when it is a valid
    [MMDDYY] date) and then every occurrence of [score], and trims again.
    If the text [q] so obtained holds [ vs ], or else [ v ], then the first
    team is the text before the first separator and the second team is the
    text from there up to the next separator, or to the end when there is
    none, both trimmed; the second may be the empty string.  In particular
    [lakers vs celtics score yesterday] gives [lakers], [celtics] and the
    day before the current one. *)
Theorem team_query_split (query : str) (now : datetime) (token : option str)
    (date : datetime) (sep : str) :
  date_token (strip (lower query)) now token date ->
  let q := strip (remove_all "score"
                    (match token with
                     | Some t => remove_all t (strip (lower query))
                     | None => strip (lower query)
                     end)) in
  (sep = (" vs " : str) /\ contains " vs " q = true)
  \/ (sep = (" v " : str) /\ contains " vs " q = false /\ contains " v " q = true) ->
  (exists left mid rest,
     q = left ++ sep ++ mid ++ rest
     /\ contains sep (left ++ removelast sep) = false
     /\ ((rest = [] /\ contains sep mid = false)
         \/ (startswith sep rest = true
             /\ contains sep (mid ++ removelast sep) = false))
     /\ parse_team_query query now
        = mk_team_query (strip left) (Some (strip mid)) date)
  /\ parse_team_query "lakers vs celtics score yesterday" now
     = mk_team_query "lakers" (Some ("celtics" : str)) (add_days now (-1))
  /\ parse_team_query "lakers vs celtics score today" now
     = mk_team_query "lakers" (Some ("celtics" : str)) now
  /\ parse_team_query "Lakers v Celtics tomorrow" now
     = mk_team_query "lakers" (Some ("celtics" : str)) (add_days now 1)
  /\ parse_team_query "lakers vs celtics score 110426" now
     = mk_team_query "lakers" (Some ("celtics" : str)) (mk_datetime 739924 0)
  /\ parse_team_query "lakers vs celtics today yesterday" now
     = mk_team_query "lakers" (Some ("celtics  yesterday" : str)) now
  /\ parse_team_query "today lakers vs celtics today score score" now
     = mk_team_query "lakers" (Some ("celtics" : str)) now
  /\ parse_team_query "lakers vs score" now
     = mk_team_query "lakers vs" None now.
Proof.
  intros Htoken q Hsep. split; [|repeat split].
  pose proof (team_query_text_token query now token date Htoken) as Htext.
  fold q in Htext. unfold parse_team_query. rewrite Htext.
  destruct Hsep as [[-> Hvs] | (-> & Hvs & Hv)].
  - destruct (teams_of_split (" vs " : str) q)
      as (left & mid & rest & Hq & Hno & Hrest & Hparts); [done | done |].
    exists left, mid, rest. rewrite Hvs, Hparts. done.
  - destruct (teams_of_split (" v " : str) q)
      as (left & mid & rest & Hq & Hno & Hrest & Hparts); [done | done |].
    exists left, mid, rest. rewrite Hvs, Hv, Hparts. done.
Qed.

Lemma team_query_split_witness :
  date_token (strip (lower "Lakers vs Celtics score today")) sample_now
    (Some ("today" : str)) sample_now
  /\ exists left mid rest,
       ("lakers vs celtics" : str) = left ++ (" vs " : str) ++ mid ++ rest
       /\ parse_team_query "Lakers vs Celtics score today" sample_now
          = mk_team_query (strip left) (Some (strip mid)) sample_now.
Proof.
  assert (Ht : date_token (strip (lower "Lakers vs Celtics score today")) sample_now
                 (Some ("today" : str)) sample_now).
  { left. repeat split. }
  split; [exact Ht|].
  destruct (team_query_split "Lakers vs Celtics score today" sample_now
              (Some ("today" : str)) sample_now " vs " Ht)
    as ((team1 & team2 & rest & Hq & _ & _ & Hp) & _); [left; split; reflexivity|].
  exists team1, team2, rest. split; [exact Hq | exact Hp].
Defined.

(** ** Game records *)

Lemma collect_games_app repr_value events1 events2 lg :
  collect_games repr_value (events1 ++ events2) lg
  = collect_games repr_value events1 lg ++ collect_games repr_value events2 lg.
Proof.
  induction events1 as [|e events1 IH]; [done|]. simpl.
  destruct (parse_game repr_value e lg); simpl; by rewrite IH.
Qed.

Lemma collect_games_omap repr_value events lg :
  collect_games repr_value events lg
  = omap (fun e => parse_game repr_value e lg) events.
Proof.
  induction events as [|e events IH]; [done|]. simpl.
  destruct (parse_game repr_value e lg); simpl; by rewrite IH.
Qed.

Lemma competitors_loop_strings {A} st (l : list A) (f : A -> str) :
  l <> [] -> competitors_loop st (map (fun x => JStr (f x)) l) = None.
Proof. by destruct l. Qed.

(** C9: [parse_game] returns nothing when the first competition of the
    event does not hold exactly two competitors, and returns a record
    exactly when the event has the structure it reads: a dict whose first
    competition is a dict with a list of two competitor dicts, a status
    dict with a type dict, and a date that can be sliced.  The record has
    status [Final] for [STATUS_FINAL], [Live] for [STATUS_IN_PROGRESS] and
    [Scheduled] otherwise, and the score [away-home] when final or live and
    [-] when scheduled.  An event that gives nothing is left out of what
    [fetch_games] collects, and the events around it are collected as
    without it. *)
Theorem parse_game_record (repr_value : json -> str) (event : json) (league : str) :
  (forall ev competition,
     event = JObj ev ->
     index0 (dict_get ev "competitions" (JArr [JObj []])) = Some (JObj competition) ->
     py_len (dict_get competition "competitors" (JArr [])) <> Some 2%nat ->
     parse_game repr_value event league = None)
  /\ (forall g,
        parse_game repr_value event league = Some g <->
        exists ev competition c1 c2 st status_d type_d date,
          event = JObj ev
          /\ index0 (dict_get ev "competitions" (JArr [JObj []]))
             = Some (JObj competition)
          /\ dict_get competition "competitors" (JArr []) = JArr [c1; c2]
          /\ competitors_loop sides0 [c1; c2] = Some st
          /\ dict_get ev "status" (JObj []) = JObj status_d
          /\ dict_get status_d "type" (JObj []) = JObj type_d
          /\ slice10 (dict_get ev "date" (JStr "")) = Some date
          /\ let status_name := dict_get type_d "name" (JStr "Unknown") in
             let status :=
               if eq_str status_name "STATUS_FINAL" then Final
               else if eq_str status_name "STATUS_IN_PROGRESS" then Live
               else Scheduled in
             let score :=
               match status with
               | Scheduled => ("-" : str)
               | _ => format_value repr_value (away_score st) ++ ("-" : str)
                      ++ format_value repr_value (home_score st)
               end in
             g = mk_game (upper league) (home_team st) (away_team st)
                         score status date)
  /\ (forall before after,
        parse_game repr_value event league = None ->
        collect_games repr_value (before ++ event :: after) league
        = collect_games repr_value before league
          ++ collect_games repr_value after league)
  /\ (forall events,
        collect_games repr_value events league
        = omap (fun e => parse_game repr_value e league) events).
Proof.
  split; [|split; [|split]].
  - intros ev competition -> Hc Hlen. unfold parse_game. cbn [as_dict mbind option_bind].
    rewrite Hc. cbn [as_dict mbind option_bind].
    destruct (py_len (dict_get competition "competitors" (JArr []))) as [n|];
      [|done].
    cbn [mbind option_bind]. destruct (n =? 2)%nat eqn:E; [|done].
    apply Nat.eqb_eq in E. congruence.
  - intros g. split.
    + intros H. unfold parse_game in H.
      destruct event as [| | | | | |ev]; try done.
      cbn [as_dict mbind option_bind] in H.
      destruct (index0 (dict_get ev "competitions" (JArr [JObj []])))
        as [competition|] eqn:Hc; [|done].
      cbn [mbind option_bind] in H.
      destruct competition as [| | | | | |competition]; try done.
      cbn [as_dict mbind option_bind] in H.
      destruct (dict_get competition "competitors" (JArr [])) as [| | | |s|l|d] eqn:Hcs;
        try done; cbn [py_len py_iter mbind option_bind] in H.
      * destruct (length s =? 2)%nat eqn:E; [|done]. cbn [negb] in H.
        rewrite competitors_loop_strings in H; [done|].
        by destruct s.
      * destruct (length l =? 2)%nat eqn:E; [|done]. cbn [negb] in H.
        apply Nat.eqb_eq in E.
        destruct l as [|c1 [|c2 [|? ?]]]; try discriminate.
        destruct (competitors_loop sides0 [c1; c2]) as [st|] eqn:Hloop; [|done].
        cbn [mbind option_bind] in H.
        destruct (dict_get ev "status" (JObj [])) as [| | | | | |status_d] eqn:Hst;
          try done.
        cbn [as_dict mbind option_bind] in H.
        destruct (dict_get status_d "type" (JObj [])) as [| | | | | |type_d] eqn:Hty;
          try done.
        cbn [as_dict mbind option_bind] in H.
        destruct (slice10 (dict_get ev "date" (JStr ""))) as [date|] eqn:Hd; [|done].
        cbn [mbind option_bind] in H. injection H as <-.
        exists ev, competition, c1, c2, st, status_d, type_d, date.
        unfold score_string, status_of_name.
        repeat split; done.
      * destruct (length d =? 2)%nat eqn:E; [|done]. cbn [negb] in H.
        rewrite competitors_loop_strings in H; [done|].
        by destruct d.
    + intros (ev & competition & c1 & c2 & st & status_d & type_d & date
              & -> & Hc & Hcs & Hloop & Hst & Hty & Hd & ->).
      unfold parse_game. cbn [as_dict mbind option_bind].
      rewrite Hc. cbn [as_dict mbind option_bind].
      rewrite Hcs. cbn [py_len py_iter length Nat.eqb negb mbind option_bind].
      rewrite Hloop. cbn [mbind option_bind].
      rewrite Hst. cbn [as_dict mbind option_bind].
      rewrite Hty. cbn [as_dict mbind option_bind].
      rewrite Hd. cbn [mbind option_bind].
      reflexivity.
  - intros before after Hnone. rewrite collect_games_app. simpl. by rewrite Hnone.
  - intros events. apply collect_games_omap.
Qed.

Lemma parse_game_record_witness :
  parse_game sample_repr (sample_event "STATUS_FINAL") "nba"
    = Some (mk_game "NBA" (JStr "Boston Celtics") (JStr "Los Angeles Lakers")
                    "101-99" Final (JStr "2026-11-04"))
  /\ parse_game sample_repr broken_event "nba" = None
  /\ collect_games sample_repr
       [sample_event "STATUS_SCHEDULED"; broken_event;
        sample_event "STATUS_IN_PROGRESS"] "nba"
     = collect_games sample_repr [sample_event "STATUS_SCHEDULED"] "nba"
       ++ collect_games sample_repr [sample_event "STATUS_IN_PROGRESS"] "nba".
Proof.
  destruct (parse_game_record sample_repr broken_event "nba") as (H1 & _ & H3 & _).
  split; [reflexivity|]. split.
  - eapply H1; [reflexivity | reflexivity | discriminate].
  - apply (H3 [sample_event "STATUS_SCHEDULED"] [sample_event "STATUS_IN_PROGRESS"]).
    reflexivity.
Defined.

(** ** The matching loop ends *)

Section MatchingBlocks.

Variables a b : str.
Variable b2j : gmap ascii (list nat).

Lemma scan_row_bounds (j2len : gmap nat nat) (alo blo bhi i : nat) js :
  (alo <= i)%nat ->
  map_Forall (fun _ k => (k <= i - alo)%nat) j2len ->
  forall newj2len bi bj bs,
    map_Forall (fun _ k => (k <= i + 1 - alo)%nat) newj2len ->
    (alo <= bi)%nat -> (bi + bs <= i + 1)%nat ->
    forall m bi' bj' bs',
      scan_row j2len blo bhi i js newj2len (bi, bj, bs) = (m, (bi', bj', bs')) ->
      map_Forall (fun _ k => (k <= i + 1 - alo)%nat) m
      /\ (alo <= bi')%nat /\ (bi' + bs' <= i + 1)%nat.
Proof.
  intros Hi Hj2. induction js as [|j js IH];
    intros newj2len bi bj bs Hnew Hbi Hbs m bi' bj' bs'; simpl.
  - intros [= <- <- <- <-]. done.
  - destruct (j <? blo)%nat; [by apply IH|].
    destruct (bhi <=? j)%nat; [intros [= <- <- <- <-]; done|].
    assert (Hk : (j2len_get_pred j2len j + 1 <= i + 1 - alo)%nat).
    { unfold j2len_get_pred. destruct j as [|j']; [lia|].
      destruct (j2len !! j') as [k|] eqn:E; simpl; [|lia].
      apply (map_Forall_lookup_1 _ _ _ _ Hj2) in E. simpl in E. lia. }
    destruct (bs <? j2len_get_pred j2len j + 1)%nat.
    + apply IH; [by apply map_Forall_insert_2 | lia | lia].
    + apply IH; [by apply map_Forall_insert_2 | lia | lia].
Qed.

Lemma scan_rows_bounds (alo blo bhi : nat) n :
  forall i j2len bi bj bs,
    (alo <= i)%nat ->
    map_Forall (fun _ k => (k <= i - alo)%nat) j2len ->
    (alo <= bi)%nat -> (bi + bs <= i)%nat ->
    forall bi' bj' bs',
      scan_rows a b2j blo bhi (seq i n) j2len (bi, bj, bs) = (bi', bj', bs') ->
      (alo <= bi')%nat /\ (bi' + bs' <= i + n)%nat.
Proof.
  induction n as [|n IH]; intros i j2len bi bj bs Hi Hj2 Hbi Hbs bi' bj' bs'; simpl.
  - intros [= <- <- <-]. lia.
  - destruct (scan_row j2len blo bhi i _ ∅ (bi, bj, bs)) as [m [[bi1 bj1] bs1]] eqn:E.
    apply (scan_row_bounds j2len alo) in E as (Hm & Hbi1 & Hbs1);
      [| done | done | apply map_Forall_empty | done | lia].
    intros H. apply IH in H; [lia | lia | | done | lia].
    replace (S i - alo)%nat with (i + 1 - alo)%nat by lia. done.
Qed.

Lemma extend_left_bounds (alo blo : nat) :
  forall bi bj bs bi' bj' bs',
    extend_left a b alo blo bi bj bs = (bi', bj', bs') ->
    (alo <= bi)%nat -> (alo <= bi')%nat /\ (bi' + bs' = bi + bs)%nat.
Proof.
  induction bi as [|i IH]; intros bj bs bi' bj' bs'; simpl.
  - intros [= <- <- <-]. lia.
  - destruct bj as [|j]; [intros [= <- <- <-]; lia|].
    destruct ((alo <? S i)%nat && (blo <? S j)%nat
              && bool_decide (a !! i = b !! j)) eqn:E.
    + intros H Hi. apply IH in H.
      * lia.
      * apply andb_true_iff in E as [E _]. apply andb_true_iff in E as [E _].
        apply Nat.ltb_lt in E. lia.
    + intros [= <- <- <-]. lia.
Qed.

Lemma extend_right_bounds (bhi bi bj : nat) :
  forall room bs,
    (bs <= extend_right a b bhi bi bj room bs <= bs + room)%nat.
Proof.
  induction room as [|room IH]; intros bs; simpl; [lia|].
  destruct ((bj + bs <? bhi)%nat && bool_decide (a !! (bi + bs)%nat = b !! (bj + bs)%nat));
    [|lia].
  specialize (IH (S bs)). lia.
Qed.

(** A match lies inside the rows it was searched in. *)
Lemma find_longest_match_bounds (alo ahi blo bhi i j k : nat) :
  find_longest_match a b b2j alo ahi blo bhi = (i, j, k) ->
  (alo <= i)%nat /\ (i + k <= Nat.max alo ahi)%nat.
Proof.
  unfold find_longest_match.
  destruct (scan_rows a b2j blo bhi (seq alo (ahi - alo)) ∅ (alo, blo, O))
    as [[bi1 bj1] bs1] eqn:E1.
  apply (scan_rows_bounds alo) in E1 as [H1 H1'];
    [| lia | apply map_Forall_empty | lia | lia].
  destruct (extend_left a b alo blo bi1 bj1 bs1) as [[bi2 bj2] bs2] eqn:E2.
  apply extend_left_bounds in E2 as [H2 H2']; [|done].
  intros [= <- <- <-].
  pose proof (extend_right_bounds bhi bi2 bj2 (ahi - (bi2 + bs2)) bs2). lia.
Qed.

(** With fuel for the weight of the queue the loop runs until the queue is
    empty. *)
Lemma blocks_loop_ends fuel :
  forall queue blocks,
    (queue_weight queue <= fuel)%nat ->
    snd (blocks_loop fuel a b b2j queue blocks) = [].
Proof.
  induction fuel as [|fuel IH]; intros queue blocks Hw.
  - destruct queue as [|[[[alo ahi] blo] bhi] queue]; [done|].
    simpl in Hw. lia.
  - destruct queue as [|[[[alo ahi] blo] bhi] queue]; [done|].
    cbn [blocks_loop]. cbn [queue_weight fold_right] in Hw. fold (queue_weight queue) in Hw.
    destruct (find_longest_match a b b2j alo ahi blo bhi) as [[i j] k] eqn:E.
    apply find_longest_match_bounds in E as [Hi Hk].
    destruct (k =? 0)%nat eqn:Ek; [apply IH; lia|].
    apply Nat.eqb_neq in Ek. apply IH.
    destruct ((alo <? i)%nat && (blo <? j)%nat) eqn:E1;
      destruct ((i + k <? ahi)%nat && (j + k <? bhi)%nat) eqn:E2;
      cbn [queue_weight fold_right]; fold (queue_weight queue);
      repeat match goal with
             | H : _ && _ = true |- _ => apply andb_true_iff in H as [H _]
             | H : (_ <? _)%nat = true |- _ => apply Nat.ltb_lt in H
             end; lia.
Qed.

End MatchingBlocks.

(** The loop of [get_matching_blocks] has emptied its queue when it stops:
    the ratio is computed from all the blocks. *)
Lemma get_matching_blocks_ends (a b : str) :
  snd (blocks_loop (blocks_fuel a) a b (chain_b b) [(O, length a, O, length b)] [])
  = [].
Proof. apply blocks_loop_ends. unfold blocks_fuel. simpl. lia. Qed.

(** ** The Team Matcher *)

Lemma fuzzy_match_normal fragment candidate :
  fuzzy_match (strip (lower fragment)) (lower candidate)
  = ratio (strip (lower fragment)) (strip (lower candidate)).
Proof. unfold fuzzy_match. by rewrite normalise_twice, lower_lower. Qed.

Lemma team_match_accepts fragment home away :
  team_match (strip (lower fragment)) (lower home) (lower away)
  = accepts fragment home || accepts fragment away.
Proof.
  unfold team_match, accepts.
  destruct (contains _ (lower home)), (contains _ (lower away)),
    (Qgtb (fuzzy_match _ (lower home)) threshold),
    (Qgtb (fuzzy_match _ (lower away)) threshold); reflexivity.
Qed.

Lemma accepts_blank fragment candidate :
  strip (lower fragment) = [] -> accepts fragment candidate = true.
Proof. unfold accepts. intros ->. by rewrite contains_nil. Qed.

Lemma game_matches_selected team1 team2 home away game :
  g_home game = JStr home -> g_away game = JStr away ->
  game_matches (strip (lower team1))
    (if str_truthy team2 then strip <$> (lower <$> team2) else None)
    (lower home) (lower away)
  = selected team1 team2 game.
Proof.
  intros Hh Ha. unfold game_matches, selected. rewrite Hh, Ha. cbn [name_of].
  rewrite team_match_accepts.
  destruct (accepts team1 home || accepts team1 away); [|done]. cbn [andb].
  destruct team2 as [t2|]; [|done].
  destruct t2 as [|c t2]; cbn [str_truthy fmap option_fmap option_map].
  - by rewrite accepts_blank.
  - destruct (strip (lower (c :: t2))) as [|d u] eqn:E.
    + by rewrite accepts_blank.
    + rewrite <- E. apply team_match_accepts.
Qed.

Lemma find_loop_filter games team1 team2 matched :
  Forall named games ->
  find_loop games (strip (lower team1))
    (if str_truthy team2 then strip <$> (lower <$> team2) else None) matched
  = Some (matched ++ filter (fun g => selected team1 team2 g = true) games).
Proof.
  intros Hnamed. revert matched.
  induction Hnamed as [|game games [[home Hh] [away Ha]] _ IH]; intros matched.
  - by rewrite filter_nil, app_nil_r.
  - cbn [find_loop]. rewrite Hh, Ha. cbn [lower_field mbind option_bind].
    rewrite (game_matches_selected team1 team2 home away game Hh Ha), IH.
    rewrite filter_cons. destruct (selected team1 team2 game).
    + rewrite decide_True by done. by rewrite <- app_assoc.
    + rewrite decide_False by done. done.
Qed.

Lemma Qgtb_spec x y : Qgtb x y = true <-> (y < x)%Q.
Proof.
  unfold Qgtb. rewrite negb_true_iff, <- not_true_iff_false, Qle_bool_iff.
  split; [apply Qnot_le_lt | apply Qlt_not_le].
Qed.

Lemma accepts_unfold fragment candidate :
  accepts fragment candidate
  = contains (strip (lower fragment)) (lower candidate)
    || Qgtb (ratio (strip (lower fragment)) (strip (lower candidate))) (6 # 10).
Proof. unfold accepts. by rewrite fuzzy_match_normal. Qed.

(** C3: on a list of records whose two names are strings,
    [find_team_game] returns the records for which the first fragment is
    accepted against the home or the away name and, when a second fragment
    is given, the second is accepted as well against the home or the away
    name of the same record, on whichever side; a fragment is accepted
    against a name when, lower-cased and trimmed, it is inside the
    lower-cased name, or when the ratio of the two, lower-cased and trimmed,
    is above 0.6.  The records come as a subsequence of the list, in its
    order; there is none when the first fragment is accepted against no
    name. *)
Theorem find_team_game_filter (games : list game) (team1 : str) (team2 : option str) :
  Forall named games ->
  let rule (fragment name : str) : bool :=
    contains (strip (lower fragment)) (lower name)
    || Qgtb (ratio (strip (lower fragment)) (strip (lower name))) (6 # 10) in
  let keep (g : game) : bool :=
    (rule team1 (name_of (g_home g)) || rule team1 (name_of (g_away g)))
    && match team2 with
       | Some t2 => rule t2 (name_of (g_home g)) || rule t2 (name_of (g_away g))
       | None => true
       end in
  let matched := filter (fun g => keep g = true) games in
  find_team_game games team1 team2 = Some matched
  /\ (forall fragment name,
        rule fragment name = true <->
        contains (strip (lower fragment)) (lower name) = true
        \/ (6 # 10 < ratio (strip (lower fragment)) (strip (lower name)))%Q)
  /\ (forall g,
        g ∈ matched <->
        g ∈ games
        /\ (rule team1 (name_of (g_home g)) = true
            \/ rule team1 (name_of (g_away g)) = true)
        /\ (forall t2, team2 = Some t2 ->
              rule t2 (name_of (g_home g)) = true
              \/ rule t2 (name_of (g_away g)) = true))
  /\ sublist matched games
  /\ ((forall g, g ∈ games ->
         rule team1 (name_of (g_home g)) = false
         /\ rule team1 (name_of (g_away g)) = false) ->
      find_team_game games team1 team2 = Some []).
Proof.
  intros Hnamed rule keep matched.
  assert (Hkeep : forall g, selected team1 team2 g = keep g).
  { intros g. unfold selected, keep, rule. rewrite !accepts_unfold.
    destruct team2 as [t2|]; [|done]. by rewrite !accepts_unfold. }
  assert (Hfind : find_team_game games team1 team2 = Some matched).
  { unfold find_team_game. rewrite find_loop_filter by done. cbn [app].
    f_equal. unfold matched. apply list_filter_iff. intros g. by rewrite Hkeep. }
  assert (Hsel : forall g,
            keep g = true <->
            (rule team1 (name_of (g_home g)) = true
             \/ rule team1 (name_of (g_away g)) = true)
            /\ (forall t2, team2 = Some t2 ->
                  rule t2 (name_of (g_home g)) = true
                  \/ rule t2 (name_of (g_away g)) = true)).
  { intros g. unfold keep. rewrite andb_true_iff, orb_true_iff.
    destruct team2 as [t2|].
    - rewrite orb_true_iff. split.
      + intros [H1 H2]. split; [done|]. by intros ? [= <-].
      + intros [H1 H2]. split; [done|]. by apply H2.
    - split; [intros [H1 _]; by split | intros [H1 _]; by split]. }
  split; [done|]. split; [|split; [|split]].
  - intros fragment name. unfold rule. rewrite orb_true_iff, Qgtb_spec. tauto.
  - intros g. unfold matched. rewrite list_elem_of_filter, Hsel. tauto.
  - apply sublist_filter.
  - intros Hnone. rewrite Hfind. f_equal. unfold matched.
    apply filter_none. apply Forall_forall. intros g Hg Hs.
    apply Hsel in Hs as [[H|H] _]; destruct (Hnone g Hg); congruence.
Qed.

Lemma find_team_game_filter_witness :
  Forall named sample_games
  /\ find_team_game sample_games "celtic" None
     = Some [sample_game "Los Angeles Lakers" "Boston Celtics";
             sample_game "Boston Celtics" "Chicago Bulls"]
  /\ find_team_game sample_games "boston" (Some ("celtics" : str))
     = Some [sample_game "Los Angeles Lakers" "Boston Celtics";
             sample_game "Boston Celtics" "Chicago Bulls"]
  /\ find_team_game sample_games "celtics" (Some ("lakers" : str))
     = Some [sample_game "Los Angeles Lakers" "Boston Celtics"]
  /\ find_team_game sample_games "bostn celtics" None
     = Some [sample_game "Los Angeles Lakers" "Boston Celtics";
             sample_game "Boston Celtics" "Chicago Bulls"]
  /\ find_team_game sample_games "lakers" (Some ("Bostn Celtics" : str))
     = Some [sample_game "Los Angeles Lakers" "Boston Celtics"]
  /\ find_team_game sample_games "miami heet" None
     = Some [sample_game "New York Knicks" "Miami Heat"]
  /\ find_team_game sample_games "bostn" None = Some [].
Proof.
  assert (Hn : Forall named sample_games).
  { repeat constructor; eexists; reflexivity. }
  split; [exact Hn|].
  split; [|split; [|split; [|split; [|split; [|split]]]]].
  - destruct (find_team_game_filter sample_games "celtic" None Hn) as [H _].
    rewrite H. vm_compute. reflexivity.
  - destruct (find_team_game_filter sample_games "boston" (Some ("celtics" : str)) Hn)
      as [H _].
    rewrite H. vm_compute. reflexivity.
  - destruct (find_team_game_filter sample_games "celtics" (Some ("lakers" : str)) Hn)
      as [H _].
    rewrite H. vm_compute. reflexivity.
  - destruct (find_team_game_filter sample_games "bostn celtics" None Hn) as [H _].
    rewrite H. vm_compute. reflexivity.
  - destruct (find_team_game_filter sample_games "lakers"
                (Some ("Bostn Celtics" : str)) Hn) as [H _].
    rewrite H. vm_compute. reflexivity.
  - destruct (find_team_game_filter sample_games "miami heet" None Hn) as [H _].
    rewrite H. vm_compute. reflexivity.
  - destruct (find_team_game_filter sample_games "bostn" None Hn) as [H _].
    rewrite H. vm_compute. reflexivity.
Defined.

(** C4, the code against the claim: the fragment is trimmed before the
    substring test as well.  [lakers] followed by a blank is accepted
    against [Los Angeles Lakers], where the lower-cased fragment is no
    substring of the name and the ratio is one half. *)
Lemma trimmed_fragment_counterexample :
  accepts "lakers " "Los Angeles Lakers" = true
  /\ accepts_as_specified "lakers " "Los Angeles Lakers" = false
  /\ contains (lower "lakers ") (lower "Los Angeles Lakers") = false
  /\ ratio (strip (lower "lakers ")) (strip (lower "Los Angeles Lakers")) = 12 # 24.
Proof. repeat split; vm_compute; reflexivity. Qed.

(** C4 as amended: the Team Matcher accepts a fragment against a name iff
    the fragment, lower-cased and trimmed, is a substring of the lower-cased
    name (never the name of the fragment), or the ratio of the two strings,
    both lower-cased and trimmed, is strictly above 0.6; the ratio comes
    from a matching loop that has run to its end.  [lakers] is accepted
    against [Los Angeles Lakers], [celtic] against [Boston Celtics], [laker]
    against [Lakers]; [knicks] is not against [Boston Celtics], nor
    [Los Angeles Lakers] against [lakers], nor [abcxx] against [abcyy],
    whose ratio is 0.6 exactly. *)
Theorem accepts_rule (fragment candidate : str) :
  (accepts fragment candidate = true <->
   contains (strip (lower fragment)) (lower candidate) = true
   \/ (threshold < ratio (strip (lower fragment)) (strip (lower candidate)))%Q)
  /\ snd (blocks_loop (blocks_fuel (strip (lower fragment)))
            (strip (lower fragment)) (strip (lower candidate))
            (chain_b (strip (lower candidate)))
            [(O, length (strip (lower fragment)), O,
              length (strip (lower candidate)))] []) = []
  /\ accepts "lakers" "Los Angeles Lakers" = true
  /\ accepts "celtic" "Boston Celtics" = true
  /\ accepts "laker" "Lakers" = true
  /\ accepts "knicks" "Boston Celtics" = false
  /\ accepts "Los Angeles Lakers" "lakers" = false
  /\ (ratio "abcxx" "abcyy" == threshold)%Q
  /\ accepts "abcxx" "abcyy" = false.
Proof.
  split; [|split; [apply get_matching_blocks_ends|]].
  - unfold accepts. rewrite orb_true_iff, fuzzy_match_normal, Qgtb_spec. tauto.
  - repeat split; vm_compute; reflexivity.
Qed.

(** * Further properties of the code *)

(** ** The parsers do not see letter case or surrounding blanks *)

Lemma lstrip_blank ws : Forall (fun c => is_space c = true) ws -> lstrip ws = [].
Proof. induction 1 as [|c ws Hc _ IH]; simpl; [done | by rewrite Hc]. Qed.

Lemma rstrip_spaces t ws :
  Forall (fun c => is_space c = true) ws -> rstrip (t ++ ws) = rstrip t.
Proof.
  intros Hws. unfold rstrip. rewrite rev_app_distr, lstrip_spaces; [done|].
  by apply Forall_rev.
Qed.

Lemma lstrip_app_blank s ws :
  Forall (fun c => is_space c = true) ws ->
  exists ws', Forall (fun c => is_space c = true) ws'
              /\ lstrip (s ++ ws) = lstrip s ++ ws'.
Proof.
  intros Hws. induction s as [|c s IH]; simpl.
  - exists []. by rewrite lstrip_blank.
  - destruct (is_space c); [done|]. by exists ws.
Qed.

Lemma strip_around ws1 s ws2 :
  Forall (fun c => is_space c = true) ws1 ->
  Forall (fun c => is_space c = true) ws2 ->
  strip (ws1 ++ s ++ ws2) = strip s.
Proof.
  intros H1 H2. unfold strip. rewrite lstrip_spaces by done.
  destruct (lstrip_app_blank s ws2 H2) as (ws' & Hws' & ->).
  by apply rstrip_spaces.
Qed.

Lemma lower_blank ws :
  Forall (fun c => is_space c = true) ws ->
  Forall (fun c => is_space c = true) (lower ws).
Proof.
  intros H. unfold lower. apply Forall_map. eapply Forall_impl; [exact H|].
  intros c Hc. simpl. by rewrite is_space_lower_char.
Qed.

Lemma normal_form_around ws1 q ws2 :
  Forall (fun c => is_space c = true) ws1 ->
  Forall (fun c => is_space c = true) ws2 ->
  strip (lower (ws1 ++ q ++ ws2)) = strip (lower q).
Proof.
  intros H1 H2. unfold lower. rewrite !map_app.
  apply strip_around; by apply lower_blank.
Qed.

(** X1: the three parsers give the same result for a text and for the same
    text in another letter case or with blanks added around it. *)
Theorem parsers_ignore_case_and_blanks (q q' ws1 ws2 : str) (now : datetime) :
  Forall (fun c => is_space c = true) ws1 ->
  Forall (fun c => is_space c = true) ws2 ->
  lower q' = lower q ->
  parse_query (ws1 ++ q' ++ ws2) now = parse_query q now
  /\ parse_team_query (ws1 ++ q' ++ ws2) now = parse_team_query q now
  /\ parse_multi_league_query (ws1 ++ q' ++ ws2) now
     = parse_multi_league_query q now.
Proof.
  intros H1 H2 Hq.
  assert (Hn : strip (lower (ws1 ++ q' ++ ws2)) = strip (lower q)).
  { rewrite normal_form_around by done. by rewrite Hq. }
  unfold parse_query, parse_team_query, team_query_text, parse_multi_league_query.
  by rewrite Hn.
Qed.

Lemma parsers_ignore_case_and_blanks_witness :
  parse_team_query "  Lakers VS Celtics Score Today " sample_now
  = parse_team_query "lakers vs celtics score today" sample_now.
Proof.
  apply (parsers_ignore_case_and_blanks "lakers vs celtics score today"
           "Lakers VS Celtics Score Today" "  " " " sample_now).
  - repeat constructor.
  - repeat constructor.
  - reflexivity.
Defined.

(** ** What parse_query hands to fetch_games *)

(** X2: [parse_query] leaves the date absent exactly when it found a week
    number other than zero and no date at all in the text; in particular
    its result always holds a date or such a week. *)
Theorem parse_query_scope (query : str) (now : datetime) :
  let parsed := parse_query query now in
  let q := strip (lower query) in
  (qi_date parsed = None <->
   week_truthy (qi_week parsed) = true
   /\ contains "today" q = false /\ contains "yesterday" q = false
   /\ contains "tomorrow" q = false
   /\ mmddyy_date q = None /\ iso_date q = None)
  /\ (qi_date parsed = None -> exists w, qi_week parsed = Some w /\ w <> 0).
Proof.
  cbv zeta. unfold parse_query. cbn [qi_date qi_week].
  set (q := strip (lower query)).
  set (week := int_of_digits <$> search_week q).
  assert (Hw : week_truthy week = true -> exists w, week = Some w /\ w <> 0).
  { destruct week as [w|]; [|done]. simpl. intros Hw%negb_true_iff.
    exists w. split; [done|]. by apply Z.eqb_neq. }
  destruct (contains "today" q); [split; [split; [done | intros (_ & ? & _); done] | done]|].
  destruct (contains "yesterday" q);
    [split; [split; [done | intros (_ & _ & ? & _); done] | done]|].
  destruct (contains "tomorrow" q);
    [split; [split; [done | intros (_ & _ & _ & ? & _); done] | done]|].
  destruct (mmddyy_date q) as [d|]; cbn [date_truthy negb andb].
  { split; [split; [done | intros (_ & _ & _ & _ & ? & _); done] | done]. }
  destruct (iso_date q) as [d|]; cbn [date_truthy negb andb].
  { split; [split; [done | intros (_ & _ & _ & _ & _ & ?); done] | done]. }
  destruct (week_truthy week) eqn:E; cbn [negb].
  - split; [split; [done | done] | intros _; by apply Hw].
  - split; [split; [done | intros (? & _); done] | done].
Qed.

(** X3: a one-shot text with a week number other than zero and no date is
    fetched by week only for [nfl] and [ncaaf]; for every other league the
    request carries the date of the moment of the fetch. *)
Theorem week_only_for_week_leagues (query : str) (now now' : datetime)
    (ds lg : str) :
  week_match (strip (lower query)) ds ->
  int_of_digits ds <> 0 ->
  no_date_token (strip (lower query)) ->
  let parsed := parse_query query now in
  request_params lg (qi_week parsed) (qi_date parsed) now'
  = if bool_decide (lg ∈ [("nfl" : str); ("ncaaf" : str)])
    then [("week" : str, PInt (int_of_digits ds)); ("seasontype" : str, PInt 2)]
    else [("dates" : str, PDate now')].
Proof.
  intros Hweek Hnz (Ht & Hy & Hm & H6 & Hiso). cbv zeta.
  apply search_week_spec in Hweek.
  unfold parse_query, mmddyy_date, iso_date. cbn [qi_week qi_date].
  rewrite Hweek, Ht, Hy, Hm, H6, Hiso.
  cbn [fmap option_fmap option_map date_truthy negb andb week_truthy].
  apply Z.eqb_neq in Hnz. rewrite Hnz. cbn [negb andb].
  unfold request_params. rewrite Hnz. cbn [negb andb].
  by destruct (bool_decide _).
Qed.

Lemma week_only_for_week_leagues_witness :
  request_params "nba" (qi_week (parse_query "nba week 5" sample_now))
    (qi_date (parse_query "nba week 5" sample_now)) (add_days sample_now 1)
  = [("dates" : str, PDate (add_days sample_now 1))].
Proof.
  apply (week_only_for_week_leagues "nba week 5" sample_now
           (add_days sample_now 1) "5" "nba").
  - apply search_week_match. reflexivity.
  - discriminate.
  - repeat split.
Defined.

(** X4: a date written [YYYY-MM-DD] is read by [parse_query] only; the
    team parser does not look for it and keeps the current date. *)
Theorem iso_date_one_shot_only (query : str) (now d : datetime) (g : str) :
  contains "today" (strip (lower query)) = false ->
  contains "yesterday" (strip (lower query)) = false ->
  contains "tomorrow" (strip (lower query)) = false ->
  mmddyy_date (strip (lower query)) = None ->
  search_iso (strip (lower query)) = Some g ->
  strptime_iso g = Some d ->
  qi_date (parse_query query now) = Some d
  /\ tq_date (parse_team_query query now) = now.
Proof.
  intros Ht Hy Hm H6 Hiso Hd. split.
  - unfold parse_query, iso_date. cbn [qi_date].
    rewrite Ht, Hy, Hm, H6, Hiso, Hd. done.
  - rewrite tq_date_text. unfold team_query_text.
    rewrite Ht, Hy, Hm. unfold mmddyy_date in H6.
    destruct (search_digits6 (strip (lower query))) as [ds|]; [|done].
    by rewrite H6.
Qed.

Lemma iso_date_one_shot_only_witness :
  qi_date (parse_query "lakers vs celtics 2026-02-28" sample_now)
    = Some (mk_datetime (ymd2ord 2026 2 28) 0)
  /\ tq_date (parse_team_query "lakers vs celtics 2026-02-28" sample_now)
     = sample_now.
Proof.
  apply (iso_date_one_shot_only "lakers vs celtics 2026-02-28" sample_now
           (mk_datetime (ymd2ord 2026 2 28) 0) "2026-02-28");
    reflexivity.
Defined.

(** ** Six-digit dates *)

Lemma digit_val_range c : is_digit c = true -> 0 <= digit_val c <= 9.
Proof.
  unfold is_digit, digit_val. intros H%andb_true_iff. destruct H as [H1 H2].
  apply Z.leb_le in H1, H2. lia.
Qed.

Lemma two_digits_range c1 c2 :
  is_digit c1 = true -> is_digit c2 = true -> 0 <= int_of_digits [c1; c2] <= 99.
Proof.
  intros H1%digit_val_range H2%digit_val_range. unfold int_of_digits. simpl. lia.
Qed.

Lemma days_before_month_range y m :
  1 <= m <= 12 -> 0 <= days_before_month y m <= 335.
Proof.
  intros Hm. unfold days_before_month. generalize (is_leap y). intros l.
  assert (Hc : m = 1 \/ m = 2 \/ m = 3 \/ m = 4 \/ m = 5 \/ m = 6 \/ m = 7
               \/ m = 8 \/ m = 9 \/ m = 10 \/ m = 11 \/ m = 12) by lia.
  destruct Hc as [->|[->|[->|[->|[->|[->|[->|[->|[->|[->|[->| ->]]]]]]]]]]];
    destruct l; vm_compute; split; discriminate.
Qed.

Lemma days_before_year_mono y y' :
  y <= y' -> days_before_year y <= days_before_year y'.
Proof.
  intros H. unfold days_before_year. cbv zeta.
  Z.div_mod_to_equations. lia.
Qed.

(** X5: a date read from six digits [MMDDYY] is the midnight of a day from
    1969-01-01 to 2068-12-31: the two-digit years 69 to 99 are in the
    twentieth century and 00 to 68 in the twenty-first. *)
Theorem mmddyy_date_range (q : str) (d : datetime) :
  mmddyy_date q = Some d ->
  dt_tod d = 0 /\ ymd2ord 1969 1 1 <= dt_ord d <= ymd2ord 2068 12 31.
Proof.
  unfold mmddyy_date. destruct (search_digits6 q) as [ds|]; [|done].
  destruct ds as [|m1 [|m2 [|d1 [|d2 [|y1 [|y2 [|? ?]]]]]]]; try discriminate.
  unfold strptime_mdy.
  destruct (forallb is_digit [m1; m2; d1; d2; y1; y2]) eqn:Hdig; [|done].
  cbn [forallb] in Hdig.
  repeat (apply andb_true_iff in Hdig as [? Hdig]).
  pose proof (two_digits_range y1 y2) as Hy.
  set (m := int_of_digits [m1; m2]) in *. set (dd := int_of_digits [d1; d2]) in *.
  set (y := int_of_digits [y1; y2]) in *.
  destruct ((1 <=? m) && (m <=? 12) && (1 <=? dd) && (dd <=? 31)) eqn:E; [|done].
  repeat (apply andb_true_iff in E as [E ?]).
  unfold make_date.
  set (yy := if y <=? 68 then 2000 + y else 1900 + y).
  destruct ((1 <=? yy) && (yy <=? 9999) && (1 <=? m) && (m <=? 12)
            && (1 <=? dd) && (dd <=? days_in_month yy m)); [|done].
  intros [= <-]. cbn [dt_tod dt_ord]. split; [done|].
  assert (Hyy : 1969 <= yy <= 2068).
  { unfold yy. destruct (y <=? 68) eqn:E68; [apply Z.leb_le in E68|apply Z.leb_gt in E68];
      specialize (Hy ltac:(done) ltac:(done)); lia. }
  pose proof (days_before_month_range yy m ltac:(lia)) as Hdbm.
  pose proof (days_before_year_mono 1969 yy ltac:(lia)) as Hlo.
  pose proof (days_before_year_mono yy 2068 ltac:(lia)) as Hhi.
  unfold ymd2ord.
  change (days_before_month 1969 1) with 0.
  change (days_before_month 2068 12) with 335.
  lia.
Qed.

Lemma mmddyy_date_range_witness :
  mmddyy_date "nfl score 010150" = Some (mk_datetime (ymd2ord 2050 1 1) 0)
  /\ ymd2ord 1969 1 1 <= ymd2ord 2050 1 1 <= ymd2ord 2068 12 31.
Proof.
  split; [reflexivity|].
  apply (mmddyy_date_range "nfl score 010150" (mk_datetime (ymd2ord 2050 1 1) 0)).
  reflexivity.
Defined.

(** ** The fragments of a team query *)

Lemma Forall_remove_from (P : ascii -> Prop) old k s :
  Forall P s -> Forall P (remove_from old k s).
Proof.
  intros H. revert k. induction H as [|c s Hc Hs IH]; intros k; simpl; [done|].
  destruct k; [|apply IH].
  destruct (startswith old (c :: s)); [apply IH|]. constructor; [done | apply IH].
Qed.

Lemma Forall_remove_all (P : ascii -> Prop) old s :
  Forall P s -> Forall P (remove_all old s).
Proof. intros H. destruct old; [done|]. by apply Forall_remove_from. Qed.

Lemma Forall_strip (P : ascii -> Prop) s : Forall P s -> Forall P (strip s).
Proof.
  destruct (strip_split s) as (l & r & Hs & _). intros H. rewrite Hs in H.
  apply Forall_app in H as [_ H]. by apply Forall_app in H as [H _].
Qed.

Lemma Forall_split_from (P : ascii -> Prop) sep k s :
  Forall P s -> Forall (Forall P) (split_from sep k s).
Proof.
  intros H. revert k. induction H as [|c s Hc Hs IH]; intros k; simpl.
  - repeat constructor.
  - destruct k; [|apply IH].
    destruct (startswith sep (c :: s)); [constructor; [done | apply IH]|].
    specialize (IH O). destruct (split_from sep 0 s) as [|p ps].
    + repeat constructor. done.
    + inversion IH; subst. constructor; [by constructor | done].
Qed.

Lemma Forall_nth_part (P : ascii -> Prop) n (parts : list str) :
  Forall (Forall P) parts -> Forall P (nth n parts []).
Proof.
  intros H. revert n. induction H as [|p ps Hp _ IH]; intros [|n]; simpl; auto.
Qed.

Lemma lower_fixes s : Forall (fun c => lower_char c = c) s -> lower s = s.
Proof.
  induction 1 as [|c s Hc _ IH]; [done|]. unfold lower in *. simpl. by rewrite Hc, IH.
Qed.

Lemma lower_is_lower s : Forall (fun c => lower_char c = c) (lower s).
Proof.
  unfold lower. apply Forall_map, Forall_forall. intros c _. apply lower_char_idem.
Qed.

Lemma team_query_text_lower query now :
  Forall (fun c => lower_char c = c) (snd (team_query_text query now)).
Proof.
  destruct (team_query_text_shape query now) as (token & -> & _).
  apply Forall_strip, Forall_remove_all, Forall_remove_all, Forall_strip.
  apply lower_is_lower.
Qed.

Lemma teams_of_parts_normal parts :
  Forall (Forall (fun c => lower_char c = c)) parts ->
  strip (lower (fst (teams_of_parts parts))) = fst (teams_of_parts parts)
  /\ forall t2, snd (teams_of_parts parts) = Some t2 -> strip (lower t2) = t2.
Proof.
  intros H. unfold teams_of_parts. cbn [fst snd]. split.
  - rewrite lower_fixes, strip_strip; [done|].
    by apply Forall_strip, Forall_nth_part.
  - intros t2. destruct (_ <? _)%nat; [|done]. intros [= <-].
    rewrite lower_fixes, strip_strip; [done|].
    by apply Forall_strip, Forall_nth_part.
Qed.

(** X6: the fragments [parse_team_query] returns are lower case and trimmed
    already: the normalisation [find_team_game] applies to them at lines
    229-230 leaves them as they are. *)
Theorem team_fragments_normalised (query : str) (now : datetime) :
  let tq := parse_team_query query now in
  strip (lower (tq_team1 tq)) = tq_team1 tq
  /\ forall t2, tq_team2 tq = Some t2 -> strip (lower t2) = t2.
Proof.
  cbv zeta. unfold parse_team_query.
  pose proof (team_query_text_lower query now) as Hlow.
  destruct (team_query_text query now) as [date q]. cbn [snd] in Hlow.
  destruct (contains " vs " q).
  - pose proof (teams_of_parts_normal (split " vs " q)
                  (Forall_split_from _ _ _ _ Hlow)) as H.
    by destruct (teams_of_parts (split " vs " q)).
  - destruct (contains " v " q).
    + pose proof (teams_of_parts_normal (split " v " q)
                    (Forall_split_from _ _ _ _ Hlow)) as H.
      by destruct (teams_of_parts (split " v " q)).
    + cbn [tq_team1 tq_team2]. split; [|done].
      rewrite lower_fixes, strip_strip; [done|]. by apply Forall_strip.
Qed.

Lemma contains_strip_none p s : contains p s = false -> contains p (strip s) = false.
Proof.
  intros H. destruct (strip_split s) as (l & r & Hs & _).
  rewrite Hs in H. by apply contains_infix_false in H.
Qed.

Lemma strip_is_stripped s :
  match strip s with [] => True | c :: _ => is_space c = false end.
Proof. unfold strip. apply rstrip_head, lstrip_head. Qed.

Lemma strip_not_nil s :
  match s with [] => False | c :: _ => is_space c = false end -> strip s <> [].
Proof.
  intros Hs. unfold strip. rewrite lstrip_id by (by destruct s).
  destruct (rstrip_split s) as (ws & Heq & Hws). intros Hnil.
  rewrite Hnil in Heq. simpl in Heq. subst ws.
  destruct s as [|c s]; [done|]. inversion Hws; congruence.
Qed.

Lemma team_query_text_stripped query now :
  match snd (team_query_text query now) with
  | [] => True
  | c :: _ => is_space c = false
  end.
Proof.
  destruct (team_query_text_shape query now) as (token & -> & _).
  apply strip_is_stripped.
Qed.

(** X7: in the result of [parse_team_query] the second team is absent
    exactly when the cleaned text holds neither [ vs ] nor [ v ], and the
    first team is then the whole cleaned text; when a separator is found
    the first team is not empty; and no fragment ever holds [ vs ]. *)
Theorem team_fragments_shape (query : str) (now : datetime) :
  let tq := parse_team_query query now in
  let q := snd (team_query_text query now) in
  (tq_team2 tq = None <-> contains " vs " q = false /\ contains " v " q = false)
  /\ (tq_team2 tq = None -> tq_team1 tq = q)
  /\ (tq_team2 tq <> None -> tq_team1 tq <> [])
  /\ contains " vs " (tq_team1 tq) = false
  /\ (forall t2, tq_team2 tq = Some t2 -> contains " vs " t2 = false).
Proof.
  cbv zeta. unfold parse_team_query.
  pose proof (team_query_text_stripped query now) as Hq.
  pose proof (team_query_text_shape query now) as (token & Hshape & _).
  destruct (team_query_text query now) as [date q]. cbn [snd] in *.
  assert (Hleft : forall sep left tail,
            q = left ++ (" " : str) ++ sep ++ tail -> strip left <> []).
  { intros sep left tail Heq. apply strip_not_nil.
    destruct left as [|c left]; [by rewrite Heq in Hq|].
    rewrite Heq in Hq. by simpl in Hq. }
  destruct (contains " vs " q) eqn:Hvs.
  - destruct (teams_of_split (" vs " : str) q)
      as (left & mid & rest & Heq & Hno & Hrest & Hparts); [done | done |].
    rewrite Hparts. cbn [tq_team1 tq_team2].
    assert (H1 : contains " vs " left = false).
    { by apply (contains_infix_false _ left [] (removelast (" vs " : str))). }
    assert (H2 : contains " vs " mid = false).
    { destruct Hrest as [[_ H]|[_ H]]; [done|].
      by apply (contains_infix_false _ mid [] (removelast (" vs " : str))). }
    split; [split; [done | intros [? _]; done]|].
    split; [done|]. split; [|split].
    + intros _. by apply (Hleft ("vs " : str) left (mid ++ rest)).
    + by apply contains_strip_none.
    + intros t2 [= <-]. by apply contains_strip_none.
  - destruct (contains " v " q) eqn:Hv.
    + destruct (teams_of_split (" v " : str) q)
        as (left & mid & rest & Heq & Hno & Hrest & Hparts); [done | done |].
      rewrite Hparts. cbn [tq_team1 tq_team2].
      assert (H1 : contains " vs " left = false).
      { apply (contains_infix_false _ left [] ((" v " : str) ++ mid ++ rest)).
        by rewrite app_nil_l, <- Heq. }
      assert (H2 : contains " vs " mid = false).
      { apply (contains_infix_false _ mid (left ++ (" v " : str)) rest).
        by rewrite <- app_assoc, <- Heq. }
      split; [split; [done | intros [_ ?]; done]|].
      split; [done|]. split; [|split].
      * intros _. by apply (Hleft ("v " : str) left (mid ++ rest)).
      * by apply contains_strip_none.
      * intros t2 [= <-]. by apply contains_strip_none.
    + cbn [tq_team1 tq_team2]. split; [done|]. split; [|split; [done|split; [|done]]].
      * intros _. by rewrite Hshape, strip_strip.
      * by apply contains_strip_none.
Qed.

(** ** find_team_game on any list of records *)

Lemma named_or_not g : named g \/ ~ named g.
Proof.
  unfold named.
  destruct (g_home g) eqn:Hh; try (right; intros [[? ?] _]; congruence).
  destruct (g_away g) eqn:Ha; try (right; intros [_ [? ?]]; congruence).
  left. eauto.
Qed.

Lemma all_named_or_not games : Forall named games \/ Exists (fun g => ~ named g) games.
Proof.
  induction games as [|g games [IH|IH]].
  - by left.
  - destruct (named_or_not g); [left; by constructor | right; by constructor].
  - right. by apply Exists_cons_tl.
Qed.

Lemma lower_field_named g :
  ~ named g -> lower_field (g_home g) = None \/ lower_field (g_away g) = None.
Proof.
  unfold named. intros H.
  destruct (g_home g) eqn:Hh; try (by left).
  destruct (g_away g) eqn:Ha; try (by right).
  destruct H. eauto.
Qed.

Lemma find_loop_raises games team1 team2 matched :
  Exists (fun g => ~ named g) games -> find_loop games team1 team2 matched = None.
Proof.
  intros H. revert matched. induction H as [g games Hg|g games _ IH]; intros matched.
  - cbn [find_loop]. destruct (lower_field_named g Hg) as [-> | Ha]; [done|].
    rewrite Ha. by destruct (lower_field (g_home g)).
  - cbn [find_loop]. destruct (lower_field (g_home g)); [|done].
    destruct (lower_field (g_away g)); [|done]. apply IH.
Qed.

Lemma find_team_game_unnamed games team1 team2 :
  Exists (fun g => ~ named g) games -> find_team_game games team1 team2 = None.
Proof. apply find_loop_raises. Qed.

(** X8: [find_team_game] raises exactly when some record of the list has
    a home or away name that is not a string, wherever the record stands
    and whether or not another record matches. *)
Theorem find_team_game_raises (games : list game) (team1 : str) (team2 : option str) :
  find_team_game games team1 team2 = None <-> Exists (fun g => ~ named g) games.
Proof.
  split.
  - intros H. destruct (all_named_or_not games) as [Hn|Hn]; [|done].
    unfold find_team_game in H. by rewrite find_loop_filter in H.
  - apply find_team_game_unnamed.
Qed.

Lemma selected_swap team1 team2 g :
  selected team1 (Some team2) g = selected team2 (Some team1) g.
Proof. unfold selected. apply andb_comm. Qed.

Lemma filter_ext_bool {A} (f g : A -> bool) (l : list A) :
  (forall x, f x = g x) ->
  filter (fun x => f x = true) l = filter (fun x => g x = true) l.
Proof.
  intros H. apply list_filter_iff. intros x. by rewrite H.
Qed.

(** X9: the two fragments can be given in either order: the same records
    come back, and the call raises for the same lists. *)
Theorem find_team_game_swap (games : list game) (team1 team2 : str) :
  find_team_game games team1 (Some team2) = find_team_game games team2 (Some team1).
Proof.
  destruct (all_named_or_not games) as [Hn|Hn].
  - unfold find_team_game. rewrite !find_loop_filter by done.
    f_equal. apply filter_ext_bool. intros g. apply selected_swap.
  - by rewrite !find_team_game_unnamed.
Qed.

Lemma selected_blank_team2 team1 t2 g :
  strip (lower t2) = [] -> selected team1 (Some t2) g = selected team1 None g.
Proof. intros H. unfold selected. by rewrite !(accepts_blank t2). Qed.

Lemma selected_blank_team1 team1 g :
  strip (lower team1) = [] -> selected team1 None g = true.
Proof. intros H. unfold selected. by rewrite !accepts_blank. Qed.

(** X10: a second fragment that is empty or blank is no constraint, and so
    is a first one: with a blank second fragment the result is that of the
    call without it, and with a blank first fragment and no second one
    every record of a list with string names comes back. *)
Theorem find_team_game_blank (games : list game) (team1 blank : str) :
  strip (lower blank) = [] ->
  find_team_game games team1 (Some blank) = find_team_game games team1 None
  /\ (Forall named games -> find_team_game games blank None = Some games).
Proof.
  intros Hb. split.
  - destruct (all_named_or_not games) as [Hn|Hn].
    + unfold find_team_game. rewrite !find_loop_filter by done.
      f_equal. apply filter_ext_bool. intros g. by apply selected_blank_team2.
    + by rewrite !find_team_game_unnamed.
  - intros Hn. unfold find_team_game. rewrite find_loop_filter by done.
    f_equal. cbn [app]. clear Hn. induction games as [|g games IH]; [done|].
    rewrite filter_cons_True by by apply selected_blank_team1. by rewrite IH.
Qed.

Lemma find_team_game_blank_witness :
  find_team_game sample_games "celtics" (Some ("  " : str))
  = find_team_game sample_games "celtics" None.
Proof.
  apply (find_team_game_blank sample_games "celtics" "  "). reflexivity.
Defined.

(** X11: searching a list made of two parts gives the matches of the first
    part followed by those of the second, and raises when either search
    raises. *)
Theorem find_team_game_app (games1 games2 : list game) (team1 : str)
    (team2 : option str) :
  find_team_game (games1 ++ games2) team1 team2
  = (matched1 ← find_team_game games1 team1 team2;
     matched2 ← find_team_game games2 team1 team2;
     Some (matched1 ++ matched2)).
Proof.
  destruct (all_named_or_not games1) as [Hn1|Hn1].
  - destruct (all_named_or_not games2) as [Hn2|Hn2].
    + unfold find_team_game.
      rewrite !find_loop_filter by (done || by apply Forall_app).
      cbn [mbind option_bind app]. by rewrite filter_app.
    + rewrite (find_team_game_unnamed games2) by done.
      rewrite (find_team_game_unnamed (games1 ++ games2))
        by (apply Exists_app; by right).
      by destruct (find_team_game games1 team1 team2).
  - rewrite (find_team_game_unnamed games1) by done.
    by rewrite (find_team_game_unnamed (games1 ++ games2))
      by (apply Exists_app; by left).
Qed.

Lemma filter_named (P : game -> Prop) `{!forall g, Decision (P g)} games :
  Forall named games -> Forall named (filter P games).
Proof.
  intros Hn. apply Forall_forall. intros g [_ Hg]%list_elem_of_filter.
  rewrite Forall_forall in Hn. by apply Hn.
Qed.

(** X12: searching again in what a search returned, with the same
    fragments, returns it unchanged; and a search with a second fragment
    returns a part of what the search with the first fragment alone
    returns, namely its records that the second fragment accepts. *)
Theorem find_team_game_narrows (games matched : list game) (team1 : str)
    (team2 : option str) :
  find_team_game games team1 team2 = Some matched ->
  find_team_game matched team1 team2 = Some matched
  /\ exists matched1,
       find_team_game games team1 None = Some matched1
       /\ sublist matched matched1
       /\ find_team_game matched1 team1 team2 = Some matched.
Proof.
  intros H. destruct (all_named_or_not games) as [Hn|Hn];
    [|by rewrite find_team_game_unnamed in H].
  unfold find_team_game in *. rewrite find_loop_filter in H by done.
  cbn [app] in H. injection H as <-.
  split.
  - rewrite find_loop_filter by by apply filter_named.
    cbn [app]. f_equal. rewrite list_filter_filter.
    apply list_filter_iff. tauto.
  - exists (filter (fun g => selected team1 None g = true) games).
    rewrite (find_loop_filter games team1 None) by done.
    rewrite find_loop_filter by by apply filter_named.
    cbn [app]. 
    assert (Heq : filter (fun g => selected team1 team2 g = true)
                    (filter (fun g => selected team1 None g = true) games)
                  = filter (fun g => selected team1 team2 g = true) games).
    { rewrite list_filter_filter. apply list_filter_iff. intros g.
      unfold selected. rewrite !andb_true_iff. tauto. }
    split; [done|]. rewrite Heq. split; [|done].
    rewrite <- Heq. apply sublist_filter.
Qed.

Lemma find_team_game_narrows_witness :
  find_team_game [sample_game "Los Angeles Lakers" "Boston Celtics"]
    "celtics" (Some ("lakers" : str))
  = Some [sample_game "Los Angeles Lakers" "Boston Celtics"].
Proof.
  apply (find_team_game_narrows sample_games
           [sample_game "Los Angeles Lakers" "Boston Celtics"]
           "celtics" (Some ("lakers" : str))).
  vm_compute. reflexivity.
Defined.

Lemma accepts_self name : accepts name name = true.
Proof.
  unfold accepts. apply orb_true_iff. left.
  destruct (strip_split (lower name)) as (l & r & Hs & _).
  apply contains_spec. by exists l, r.
Qed.

(** X13: in a list of records with string names, searching for the name
    of a team as it is displayed, in any letter case, returns every game
    the team plays in. *)
Theorem find_team_game_by_name (games : list game) (g : game) (team name : str) :
  Forall named games ->
  g ∈ games ->
  g_home g = JStr name \/ g_away g = JStr name ->
  lower team = lower name ->
  exists matched, find_team_game games team None = Some matched /\ g ∈ matched.
Proof.
  intros Hn Hg Hname Hcase.
  exists (filter (fun g => selected team None g = true) games). split.
  - unfold find_team_game. by rewrite find_loop_filter.
  - apply list_elem_of_filter. split; [|done].
    unfold selected. rewrite andb_true_r. apply orb_true_iff.
    assert (Hacc : accepts team name = true).
    { pose proof (accepts_self name) as H. unfold accepts in *. by rewrite Hcase. }
    destruct Hname as [-> | ->]; [left | right]; exact Hacc.
Qed.

Lemma find_team_game_by_name_witness :
  exists matched,
    find_team_game sample_games "new york knicks" None = Some matched
    /\ sample_game "New York Knicks" "Miami Heat" ∈ matched.
Proof.
  apply (find_team_game_by_name sample_games
           (sample_game "New York Knicks" "Miami Heat")
           "new york knicks" "New York Knicks").
  - repeat constructor; eexists; reflexivity.
  - apply list_elem_of_In. simpl. tauto.
  - by left.
  - reflexivity.
Defined.

(** ** Records from payloads *)

Lemma parse_game_some repr_value event league g :
  parse_game repr_value event league = Some g ->
  exists ev competition c1 c2 st status_d type_d date,
    event = JObj ev
    /\ index0 (dict_get ev "competitions" (JArr [JObj []])) = Some (JObj competition)
    /\ dict_get competition "competitors" (JArr []) = JArr [c1; c2]
    /\ competitors_loop sides0 [c1; c2] = Some st
    /\ dict_get ev "status" (JObj []) = JObj status_d
    /\ dict_get status_d "type" (JObj []) = JObj type_d
    /\ slice10 (dict_get ev "date" (JStr "")) = Some date
    /\ g = mk_game (upper league) (home_team st) (away_team st)
              (score_string repr_value
                 (status_of_name (dict_get type_d "name" (JStr "Unknown"))) st)
              (status_of_name (dict_get type_d "name" (JStr "Unknown"))) date.
Proof.
  intros H. unfold parse_game in H.
  destruct event as [| | | | | |ev]; try done.
  cbn [as_dict mbind option_bind] in H.
  destruct (index0 (dict_get ev "competitions" (JArr [JObj []])))
    as [competition|] eqn:Hc; [|done].
  cbn [mbind option_bind] in H.
  destruct competition as [| | | | | |competition]; try done.
  cbn [as_dict mbind option_bind] in H.
  destruct (dict_get competition "competitors" (JArr [])) as [| | | |s|l|d] eqn:Hcs;
    try done; cbn [py_len py_iter mbind option_bind] in H.
  - destruct (length s =? 2)%nat eqn:E; [|done]. cbn [negb] in H.
    rewrite competitors_loop_strings in H; [done|]. by destruct s.
  - destruct (length l =? 2)%nat eqn:E; [|done]. cbn [negb] in H.
    apply Nat.eqb_eq in E.
    destruct l as [|c1 [|c2 [|? ?]]]; try discriminate.
    destruct (competitors_loop sides0 [c1; c2]) as [st|] eqn:Hloop; [|done].
    cbn [mbind option_bind] in H.
    destruct (dict_get ev "status" (JObj [])) as [| | | | | |status_d] eqn:Hst;
      try done.
    cbn [as_dict mbind option_bind] in H.
    destruct (dict_get status_d "type" (JObj [])) as [| | | | | |type_d] eqn:Hty;
      try done.
    cbn [as_dict mbind option_bind] in H.
    destruct (slice10 (dict_get ev "date" (JStr ""))) as [date|] eqn:Hd; [|done].
    cbn [mbind option_bind] in H. injection H as <-.
    exists ev, competition, c1, c2, st, status_d, type_d, date.
    repeat split; done.
  - destruct (length d =? 2)%nat eqn:E; [|done]. cbn [negb] in H.
    rewrite competitors_loop_strings in H; [done|]. by destruct d.
Qed.

Lemma parse_game_tag repr_value event league g :
  parse_game repr_value event league = Some g ->
  g_league g = upper league /\ (g_status g = Scheduled -> g_score g = ("-" : str)).
Proof.
  intros (ev & competition & c1 & c2 & st & status_d & type_d & date
          & _ & _ & _ & _ & _ & _ & _ & ->)%parse_game_some.
  cbn [g_league g_status g_score]. split; [done|]. by intros ->.
Qed.

Lemma dict_get_missing d key default :
  List.find (fun kv => str_eqb (fst kv) key) d = None -> dict_get d key default = default.
Proof. unfold dict_get. by intros ->. Qed.

(** X14: a record built from an event that has no [status] key is
    scheduled and has the score [-]; one built from an event that has no
    [date] key has the empty date; and the date of a record, when it is a
    string, is the first ten characters of the date of the event. *)
Theorem parse_game_defaults (repr_value : json -> str) (ev : list (str * json))
    (league : str) (g : game) :
  parse_game repr_value (JObj ev) league = Some g ->
  (List.find (fun kv => str_eqb (fst kv) "status") ev = None ->
   g_status g = Scheduled /\ g_score g = ("-" : str))
  /\ (List.find (fun kv => str_eqb (fst kv) "date") ev = None -> g_date g = JStr [])
  /\ (forall s, dict_get ev "date" (JStr "") = JStr s ->
        g_date g = JStr (take 10 s) /\ (length (take 10 s) <= 10)%nat).
Proof.
  intros (ev' & competition & c1 & c2 & st & status_d & type_d & date
          & [= <-] & _ & _ & _ & Hst & Hty & Hd & ->)%parse_game_some.
  cbn [g_status g_score g_date]. split; [|split].
  - intros Hmiss. rewrite dict_get_missing in Hst by done.
    injection Hst as <-. cbn in Hty. injection Hty as <-. done.
  - intros Hmiss. rewrite dict_get_missing in Hd by done.
    cbn in Hd. by injection Hd as <-.
  - intros s Hs. rewrite Hs in Hd. cbn in Hd. injection Hd as <-.
    split; [done|]. rewrite length_take. lia.
Qed.

Lemma parse_game_defaults_witness :
  g_date <$> parse_game sample_repr (sample_event "STATUS_FINAL") "nba"
  = Some (JStr "2026-11-04").
Proof.
  destruct (parse_game sample_repr (sample_event "STATUS_FINAL") "nba")
    as [g|] eqn:E; [|discriminate E].
  destruct (parse_game_defaults sample_repr _ "nba" g E) as (_ & _ & H).
  destruct (H "2026-11-04T00:30Z" eq_refl) as [Hd _].
  cbn [fmap option_fmap option_map]. rewrite Hd. reflexivity.
Defined.

Lemma competitor_step_home st c :
  is_home c = true ->
  competitor_step st (JObj c)
  = team_data ← as_dict (dict_get c "team" (JObj []));
    Some (mk_sides
            (dict_get team_data "displayName" (dict_get team_data "name" (JStr "Unknown")))
            (away_team st) (dict_get c "score" (JStr "0")) (away_score st)).
Proof.
  intros H. unfold competitor_step, is_home in *. cbn [as_dict mbind option_bind].
  destruct (as_dict (dict_get c "team" (JObj []))); [|done].
  cbn [mbind option_bind]. by rewrite H.
Qed.

Lemma competitor_step_away st c :
  is_home c = false ->
  competitor_step st (JObj c)
  = team_data ← as_dict (dict_get c "team" (JObj []));
    Some (mk_sides (home_team st)
            (dict_get team_data "displayName" (dict_get team_data "name" (JStr "Unknown")))
            (home_score st) (dict_get c "score" (JStr "0"))).
Proof.
  intros H. unfold competitor_step, is_home in *. cbn [as_dict mbind option_bind].
  destruct (as_dict (dict_get c "team" (JObj []))); [|done].
  cbn [mbind option_bind]. by rewrite H.
Qed.

Lemma parse_game_event_with repr_value competitors competitors' others more rest lg :
  py_len competitors = py_len competitors' ->
  (comps ← py_iter competitors; competitors_loop sides0 comps)
  = (comps ← py_iter competitors'; competitors_loop sides0 comps) ->
  parse_game repr_value (event_with competitors others more rest) lg
  = parse_game repr_value (event_with competitors' others more rest) lg.
Proof.
  intros Hlen Hloop. unfold parse_game, event_with.
  cbn [as_dict mbind option_bind].
  change (dict_get ((("competitions" : str), ?v) :: rest) "competitions" _) with v.
  cbn [index0 as_dict mbind option_bind].
  change (dict_get ((("competitors" : str), competitors) :: others) "competitors" (JArr []))
    with competitors.
  change (dict_get ((("competitors" : str), competitors') :: others) "competitors" (JArr []))
    with competitors'.
  rewrite Hlen. destruct (py_len competitors') as [n|]; [|done].
  cbn [mbind option_bind]. destruct (negb (n =? 2)%nat); [done|].
  destruct (py_iter competitors) as [comps|], (py_iter competitors') as [comps'|];
    cbn [mbind option_bind] in *.
  - by rewrite Hloop.
  - by rewrite Hloop.
  - by rewrite <- Hloop.
  - done.
Qed.

(** X15: when one of the two competitors of an event is marked [home] and
    the other is not, the record does not depend on which of them the
    payload lists first. *)
Theorem parse_game_order (repr_value : json -> str) (c1 c2 : list (str * json))
    (others : list (str * json)) (more : list json) (rest : list (str * json))
    (league : str) :
  is_home c1 = true -> is_home c2 = false ->
  parse_game repr_value (event_with (JArr [JObj c1; JObj c2]) others more rest) league
  = parse_game repr_value (event_with (JArr [JObj c2; JObj c1]) others more rest) league.
Proof.
  intros H1 H2. apply parse_game_event_with; [done|].
  cbn [py_iter mbind option_bind competitors_loop].
  rewrite (competitor_step_home sides0 c1 H1), (competitor_step_away sides0 c2 H2).
  destruct (as_dict (dict_get c1 "team" (JObj []))) as [t1|] eqn:E1,
    (as_dict (dict_get c2 "team" (JObj []))) as [t2|] eqn:E2;
    cbn [mbind option_bind]; try done.
  - rewrite (competitor_step_home _ c1 H1), (competitor_step_away _ c2 H2).
    rewrite E1, E2. done.
  - rewrite (competitor_step_away _ c2 H2). by rewrite E2.
  - rewrite (competitor_step_home _ c1 H1). by rewrite E1.
Qed.

Lemma parse_game_order_witness :
  parse_game sample_repr
    (event_with (JArr [JObj (sample_side "home" "Boston Celtics" "99");
                       JObj (sample_side "away" "Los Angeles Lakers" "101")])
                [] [] []) "nba"
  = parse_game sample_repr
      (event_with (JArr [JObj (sample_side "away" "Los Angeles Lakers" "101");
                         JObj (sample_side "home" "Boston Celtics" "99")])
                  [] [] []) "nba".
Proof.
  apply (parse_game_order sample_repr (sample_side "home" "Boston Celtics" "99")
           (sample_side "away" "Los Angeles Lakers" "101")); reflexivity.
Defined.

(** X16: an event in which neither competitor is marked [home] gives, if
    it gives a record at all, a record whose home name is [None]; and
    [find_team_game] raises on every list that holds such a record. *)
Theorem parse_game_no_home (repr_value : json -> str) (c1 c2 : list (str * json))
    (others : list (str * json)) (more : list json) (rest : list (str * json))
    (league : str) (g : game) :
  is_home c1 = false -> is_home c2 = false ->
  parse_game repr_value (event_with (JArr [JObj c1; JObj c2]) others more rest) league
    = Some g ->
  g_home g = JNull
  /\ forall games team1 team2,
       g ∈ games -> find_team_game games team1 team2 = None.
Proof.
  intros H1 H2 Hg.
  assert (Hhome : g_home g = JNull).
  { apply parse_game_some in Hg
      as (ev & competition & d1 & d2 & st & status_d & type_d & date
          & [= <-] & Hc & Hcs & Hloop & _ & _ & _ & ->).
    cbn [g_home]. unfold event_with in Hc.
    change (dict_get ((("competitions" : str), ?v) :: rest) "competitions" _)
      with v in Hc.
    cbn [index0] in Hc. injection Hc as <-.
    change (dict_get ((("competitors" : str), ?v) :: others) "competitors" _)
      with v in Hcs.
    injection Hcs as <- <-.
    cbn [competitors_loop] in Hloop.
    rewrite (competitor_step_away _ c1 H1) in Hloop.
    destruct (as_dict (dict_get c1 "team" (JObj []))); [|done].
    cbn [mbind option_bind] in Hloop.
    rewrite (competitor_step_away _ c2 H2) in Hloop.
    destruct (as_dict (dict_get c2 "team" (JObj []))); [|done].
    cbn [mbind option_bind] in Hloop. by injection Hloop as <-. }
  split; [done|]. intros games team1 team2 Hin.
  apply find_team_game_unnamed. apply Exists_exists. exists g. split; [done|].
  intros [[home Hh] _]. congruence.
Qed.

Lemma parse_game_no_home_witness :
  exists g,
    parse_game sample_repr
      (event_with (JArr [JObj (sample_side "away" "Boston Celtics" "99");
                         JObj (sample_side "away" "Los Angeles Lakers" "101")])
                  [] [] []) "nba" = Some g
    /\ g_home g = JNull
    /\ find_team_game [g] "lakers" None = None.
Proof.
  eexists. split; [reflexivity|].
  edestruct (parse_game_no_home sample_repr
               (sample_side "away" "Boston Celtics" "99")
               (sample_side "away" "Los Angeles Lakers" "101") [] [] [] "nba")
    as [Hh Hf]; [reflexivity | reflexivity | reflexivity |].
  split; [exact Hh|]. apply Hf. by left.
Defined.

(** ** fetch_games *)

Lemma fetch_loop_acc repr_value http_get clock lgs week date acc :
  fetch_loop repr_value http_get clock lgs week date acc
  = (acc ++.) <$> fetch_loop repr_value http_get clock lgs week date [].
Proof.
  revert acc. induction lgs as [|lg lgs IH]; intros acc.
  - cbn. by rewrite app_nil_r.
  - cbn [fetch_loop].
    destruct (fetch_league repr_value http_get clock lg week date) as [games|];
      [|done].
    cbn [mbind option_bind app]. rewrite (IH (acc ++ games)), (IH games).
    destruct (fetch_loop repr_value http_get clock lgs week date []); [|done].
    cbn. by rewrite app_assoc.
Qed.

Lemma fetch_games_single repr_value http_get clock lg week date :
  lg <> [] ->
  fetch_games repr_value http_get clock (Some lg) week date
  = fetch_league repr_value http_get clock lg week date.
Proof.
  intros Hlg. unfold fetch_games. destruct lg as [|c lg]; [done|].
  cbn [leagues_to_fetch fetch_loop].
  destruct (fetch_league repr_value http_get clock (c :: lg) week date); done.
Qed.

Lemma fetch_loop_concat repr_value http_get clock lgs week date :
  fetch_loop repr_value http_get clock lgs week date []
  = @concat game
      <$> mapM (fun lg => fetch_league repr_value http_get clock lg week date) lgs.
Proof.
  induction lgs as [|lg lgs IH]; [done|].
  cbn [fetch_loop mapM]. 
  destruct (fetch_league repr_value http_get clock lg week date) as [games|];
    [|done].
  cbn [mbind option_bind app]. rewrite fetch_loop_acc, IH.
  destruct (mapM _ lgs); done.
Qed.

(** X17: fetching all leagues in one call gives what fetching the five
    leagues one by one gives, put end to end in the order of the table,
    and raises when one of the five calls raises. *)
Theorem fetch_games_all_leagues (repr_value : json -> str)
    (http_get : str -> params -> option json) (clock : str -> datetime)
    (week : option Z) (date : option datetime) :
  fetch_games repr_value http_get clock None week date
  = @concat game
      <$> mapM (fun lg => fetch_games repr_value http_get clock (Some lg) week date)
               APIS_keys.
Proof.
  unfold fetch_games at 1. cbn [leagues_to_fetch]. rewrite fetch_loop_concat.
  f_equal. apply Forall_mapM_ext.
  repeat constructor; symmetry; by apply fetch_games_single.
Qed.

Lemma fetch_loop_nothing repr_value http_get clock lgs week date :
  Forall (fun lg => fetch_league repr_value http_get clock lg week date = Some []) lgs ->
  fetch_loop repr_value http_get clock lgs week date [] = Some [].
Proof.
  induction 1 as [|lg lgs Hlg _ IH]; [done|].
  cbn [fetch_loop]. rewrite Hlg. cbn [mbind option_bind app]. exact IH.
Qed.

(** X18: [fetch_games] returns the empty list, and does not raise, when it
    is asked for a league that is not in the table, and when every request
    it makes fails. *)
Theorem fetch_games_nothing (repr_value : json -> str)
    (http_get : str -> params -> option json) (clock : str -> datetime)
    (league : option str) (week : option Z) (date : option datetime) :
  (exists lg, league = Some lg /\ lg <> [] /\ APIS_get lg = None)
  \/ (forall url p, http_get url p = None) ->
  fetch_games repr_value http_get clock league week date = Some [].
Proof.
  intros [(lg & -> & Hlg & Hget) | Hfail].
  - rewrite fetch_games_single by done. unfold fetch_league. by rewrite Hget.
  - unfold fetch_games. apply fetch_loop_nothing. apply Forall_forall.
    intros lg _. unfold fetch_league. destruct (APIS_get lg); [|done].
    by rewrite Hfail.
Qed.

Lemma fetch_games_nothing_witness :
  fetch_games sample_repr (constant_transport (sample_event "STATUS_FINAL"))
    sample_clock (Some ("mlb" : str)) None None = Some []
  /\ fetch_games sample_repr failing_transport sample_clock None None None = Some [].
Proof.
  split.
  - apply fetch_games_nothing. left. exists ("mlb" : str).
    split; [reflexivity|]. split; [discriminate | reflexivity].
  - apply fetch_games_nothing. right. reflexivity.
Defined.

Lemma collect_games_tag repr_value events lg :
  Forall (fun g => g_league g = upper lg
                   /\ (g_status g = Scheduled -> g_score g = ("-" : str)))
         (collect_games repr_value events lg).
Proof.
  induction events as [|e events IH]; [constructor|]. cbn [collect_games].
  destruct (parse_game repr_value e lg) as [g|] eqn:E; [|done].
  constructor; [by apply (parse_game_tag repr_value e) | done].
Qed.

Lemma fetch_league_tag repr_value http_get clock lg week date games :
  fetch_league repr_value http_get clock lg week date = Some games ->
  Forall (fun g => g_league g = upper lg
                   /\ (g_status g = Scheduled -> g_score g = ("-" : str))) games.
Proof.
  unfold fetch_league. destruct (APIS_get lg); [|by intros [= <-]].
  destruct (http_get _ _) as [data|]; [|by intros [= <-]].
  destruct (as_dict data) as [d|]; [|done]. cbn [mbind option_bind].
  destruct (py_iter _) as [events|]; [|done]. cbn [mbind option_bind].
  intros [= <-]. apply collect_games_tag.
Qed.

(** X19: every record [fetch_games] returns carries, in upper case, the
    name of one of the leagues that were fetched, and a record that is
    scheduled has the score [-]. *)
Theorem fetch_games_tags (repr_value : json -> str)
    (http_get : str -> params -> option json) (clock : str -> datetime)
    (league : option str) (week : option Z) (date : option datetime)
    (games : list game) :
  fetch_games repr_value http_get clock league week date = Some games ->
  Forall (fun g => g_league g ∈ map upper (leagues_to_fetch league)
                   /\ (g_status g = Scheduled -> g_score g = ("-" : str))) games.
Proof.
  unfold fetch_games. rewrite fetch_loop_concat.
  generalize (leagues_to_fetch league). intros lgs. revert games.
  induction lgs as [|lg lgs IH]; intros games.
  - cbn. intros [= <-]. constructor.
  - cbn [mapM].
    destruct (fetch_league repr_value http_get clock lg week date) as [gs|] eqn:E;
      [|done].
    cbn [mbind option_bind]. destruct (mapM _ lgs) as [rest|]; [|done].
    cbn. intros [= <-]. apply Forall_app. split.
    + apply fetch_league_tag in E. eapply Forall_impl; [exact E|].
      intros g [Hg ?]. split; [|done]. rewrite Hg. by left.
    + specialize (IH (concat rest) eq_refl). eapply Forall_impl; [exact IH|].
      intros g [Hg ?]. split; [|done]. by right.
Qed.

Lemma fetch_games_tags_witness :
  Forall (fun g => g_league g ∈ map upper (leagues_to_fetch (Some ("nba" : str)))
                   /\ (g_status g = Scheduled -> g_score g = ("-" : str)))
    [mk_game "NBA" (JStr "Boston Celtics") (JStr "Los Angeles Lakers")
             "-" Scheduled (JStr "2026-11-04")].
Proof.
  apply (fetch_games_tags sample_repr
           (constant_transport
              (JObj [("events" : str, JArr [sample_event "STATUS_SCHEDULED"])]))
           sample_clock (Some ("nba" : str)) None None).
  reflexivity.
Defined.

(** ** More on save_to_csv *)

Lemma save_to_csv_app file games1 games2 :
  save_to_csv (save_to_csv file games1) games2 = save_to_csv file (games1 ++ games2).
Proof.
  destruct games1 as [|g1 games1].
  - done.
  - destruct games2 as [|g2 games2].
    + by rewrite app_nil_r.
    + destruct file as [content|]; cbn.
      * by rewrite map_app, <- !app_assoc.
      * by rewrite map_app.
Qed.

(** X20: saving two lists of games one after the other leaves the file as
    saving the two lists put end to end does, whether or not the file
    existed and whether or not a list is empty. *)
Theorem save_to_csv_twice (file : csv_file) (games1 games2 : list game) :
  save_to_csv (save_to_csv file games1) games2 = save_to_csv file (games1 ++ games2)
  /\ save_to_csv (save_to_csv file games1) [] = save_to_csv file games1
  /\ save_to_csv (save_to_csv file []) games2 = save_to_csv file games2.
Proof. split; [apply save_to_csv_app | by split]. Qed.

Lemma game_row_not_header g : game_row g <> header_row.
Proof. unfold game_row, header_row. intros [= _ _ _ _ _ H]. by destruct (g_status g). Qed.



(** ** The ratio is a proportion *)

Section MatchingBlocksColumns.

Variables a b : str.
Variable b2j : gmap ascii (list nat).

Lemma scan_row_cols (j2len : gmap nat nat) (blo bhi i : nat) js :
  map_Forall (fun j k => (blo <= j /\ k <= j + 1 - blo)%nat) j2len ->
  forall newj2len bi bj bs,
    map_Forall (fun j k => (blo <= j /\ k <= j + 1 - blo)%nat) newj2len ->
    (blo <= bj)%nat -> (bj + bs <= Nat.max blo bhi)%nat ->
    forall m bi' bj' bs',
      scan_row j2len blo bhi i js newj2len (bi, bj, bs) = (m, (bi', bj', bs')) ->
      map_Forall (fun j k => (blo <= j /\ k <= j + 1 - blo)%nat) m
      /\ (blo <= bj')%nat /\ (bj' + bs' <= Nat.max blo bhi)%nat.
Proof.
  intros Hj2. induction js as [|j js IH];
    intros newj2len bi bj bs Hnew Hbj Hbs m bi' bj' bs'; simpl.
  - intros [= <- <- <- <-]. done.
  - destruct (j <? blo)%nat eqn:Elo; [by apply IH|].
    destruct (bhi <=? j)%nat eqn:Ehi; [intros [= <- <- <- <-]; done|].
    apply Nat.ltb_ge in Elo. apply Nat.leb_gt in Ehi.
    assert (Hk : (j2len_get_pred j2len j + 1 <= j + 1 - blo)%nat).
    { unfold j2len_get_pred. destruct j as [|j']; [lia|].
      destruct (j2len !! j') as [k|] eqn:E; simpl; [|lia].
      apply (map_Forall_lookup_1 _ _ _ _ Hj2) in E. simpl in E. lia. }
    destruct (bs <? j2len_get_pred j2len j + 1)%nat.
    + apply IH; [apply map_Forall_insert_2; [lia | done] | lia | lia].
    + apply IH; [apply map_Forall_insert_2; [lia | done] | lia | lia].
Qed.

Lemma scan_rows_cols (blo bhi : nat) rows :
  forall j2len bi bj bs,
    map_Forall (fun j k => (blo <= j /\ k <= j + 1 - blo)%nat) j2len ->
    (blo <= bj)%nat -> (bj + bs <= Nat.max blo bhi)%nat ->
    forall bi' bj' bs',
      scan_rows a b2j blo bhi rows j2len (bi, bj, bs) = (bi', bj', bs') ->
      (blo <= bj')%nat /\ (bj' + bs' <= Nat.max blo bhi)%nat.
Proof.
  induction rows as [|i rows IH]; intros j2len bi bj bs Hj2 Hbj Hbs bi' bj' bs'; simpl.
  - intros [= <- <- <-]. lia.
  - destruct (scan_row j2len blo bhi i _ ∅ (bi, bj, bs)) as [m [[bi1 bj1] bs1]] eqn:E.
    apply scan_row_cols in E as (Hm & Hbj1 & Hbs1);
      [| done | apply map_Forall_empty | done | done].
    intros H. by apply IH in H.
Qed.

Lemma extend_left_cols (alo blo : nat) :
  forall bi bj bs bi' bj' bs',
    extend_left a b alo blo bi bj bs = (bi', bj', bs') ->
    (blo <= bj)%nat -> (blo <= bj')%nat /\ (bj' + bs' = bj + bs)%nat.
Proof.
  induction bi as [|i IH]; intros bj bs bi' bj' bs'; simpl.
  - intros [= <- <- <-]. lia.
  - destruct bj as [|j]; [intros [= <- <- <-]; lia|].
    destruct ((alo <? S i)%nat && (blo <? S j)%nat
              && bool_decide (a !! i = b !! j)) eqn:E.
    + intros H Hj. apply IH in H.
      * lia.
      * apply andb_true_iff in E as [E _]. apply andb_true_iff in E as [_ E].
        apply Nat.ltb_lt in E. lia.
    + intros [= <- <- <-]. lia.
Qed.

Lemma extend_right_cols (bhi bi bj : nat) :
  forall room bs,
    (bj + extend_right a b bhi bi bj room bs <= Nat.max (bj + bs) bhi)%nat.
Proof.
  induction room as [|room IH]; intros bs; simpl; [lia|].
  destruct ((bj + bs <? bhi)%nat
            && bool_decide (a !! (bi + bs)%nat = b !! (bj + bs)%nat)) eqn:E;
    [|lia].
  apply andb_true_iff in E as [E _]. apply Nat.ltb_lt in E.
  specialize (IH (S bs)). lia.
Qed.

Lemma find_longest_match_cols (alo ahi blo bhi i j k : nat) :
  find_longest_match a b b2j alo ahi blo bhi = (i, j, k) ->
  (blo <= j)%nat /\ (j + k <= Nat.max blo bhi)%nat.
Proof.
  unfold find_longest_match.
  destruct (scan_rows a b2j blo bhi (seq alo (ahi - alo)) ∅ (alo, blo, O))
    as [[bi1 bj1] bs1] eqn:E1.
  apply scan_rows_cols in E1 as [H1 H1']; [| apply map_Forall_empty | lia | lia].
  destruct (extend_left a b alo blo bi1 bj1 bs1) as [[bi2 bj2] bs2] eqn:E2.
  apply extend_left_cols in E2 as [H2 H2']; [|done].
  intros [= <- <- <-].
  pose proof (extend_right_cols bhi bi2 bj2 (ahi - (bi2 + bs2)) bs2). lia.
Qed.

Lemma total_size_app l1 l2 : total_size (l1 ++ l2) = (total_size l1 + total_size l2)%nat.
Proof. induction l1 as [|t l1 IH]; simpl; [done|]. rewrite IH. lia. Qed.

(** The blocks found fit in the rows and in the columns that were queued. *)
Lemma blocks_loop_total fuel :
  forall queue blocks,
    let found := fst (blocks_loop fuel a b b2j queue blocks) in
    (total_size found <= total_size blocks + queue_rows queue)%nat
    /\ (total_size found <= total_size blocks + queue_cols queue)%nat.
Proof.
  induction fuel as [|fuel IH]; intros queue blocks; cbv zeta.
  - destruct queue as [|[[[alo ahi] blo] bhi] queue]; simpl; lia.
  - destruct queue as [|[[[alo ahi] blo] bhi] queue]; [simpl; lia|].
    cbn [blocks_loop queue_rows queue_cols fold_right].
    fold (queue_rows queue). fold (queue_cols queue).
    destruct (find_longest_match a b b2j alo ahi blo bhi) as [[i j] k] eqn:E.
    pose proof (find_longest_match_bounds a b b2j _ _ _ _ _ _ _ E) as [Hi Hk].
    pose proof (find_longest_match_cols _ _ _ _ _ _ _ E) as [Hj Hk'].
    destruct (k =? 0)%nat eqn:Ek.
    { specialize (IH queue blocks). cbv zeta in IH. lia. }
    apply Nat.eqb_neq in Ek.
    match goal with
    | |- context [blocks_loop fuel a b b2j ?q ?bl] => specialize (IH q bl)
    end.
    cbv zeta in IH. rewrite total_size_app in IH. cbn [total_size fold_right snd] in IH.
    destruct ((alo <? i)%nat && (blo <? j)%nat) eqn:E1;
      destruct ((i + k <? ahi)%nat && (j + k <? bhi)%nat) eqn:E2;
      cbn [queue_rows queue_cols fold_right] in IH;
      fold (queue_rows queue) in IH; fold (queue_cols queue) in IH;
      repeat match goal with
             | H : _ && _ = true |- _ => apply andb_true_iff in H as [? ?]
             | H : (_ <? _)%nat = true |- _ => apply Nat.ltb_lt in H
             end; lia.
Qed.

End MatchingBlocksColumns.

Lemma total_size_perm l1 l2 : l1 ≡ₚ l2 -> total_size l1 = total_size l2.
Proof.
  induction 1 as [|t l1 l2 _ IH|t1 t2 l|l1 l2 l3 _ IH1 _ IH2]; simpl; lia.
Qed.

Lemma total_size_collapse blocks :
  forall i1 j1 k1, total_size (collapse i1 j1 k1 blocks) = (k1 + total_size blocks)%nat.
Proof.
  induction blocks as [|[[i2 j2] k2] blocks IH]; intros i1 j1 k1; simpl.
  - destruct (k1 =? 0)%nat eqn:E; simpl; [apply Nat.eqb_eq in E|]; lia.
  - destruct ((i1 + k1 =? i2)%nat && (j1 + k1 =? j2)%nat).
    + rewrite IH. lia.
    + rewrite total_size_app, IH.
      destruct (k1 =? 0)%nat eqn:E; simpl; [apply Nat.eqb_eq in E|]; lia.
Qed.

(** The matching characters are no more than either string has. *)
Lemma matches_bound (a b : str) :
  (total_size (get_matching_blocks a b) <= length a
   /\ total_size (get_matching_blocks a b) <= length b)%nat.
Proof.
  unfold get_matching_blocks.
  pose proof (blocks_loop_total a b (chain_b b) (blocks_fuel a)
                [(O, length a, O, length b)] []) as H.
  cbv zeta in H.
  destruct (blocks_loop (blocks_fuel a) a b (chain_b b) [(O, length a, O, length b)] [])
    as [found left]. cbn [fst] in H.
  rewrite total_size_app, total_size_collapse.
  rewrite (total_size_perm _ _ (merge_sort_Permutation block_le found)).
  cbn in H |- *. lia.
Qed.

Lemma ratio_matches (a b : str) :
  ratio a b
  = match (length a + length b)%nat with
    | O => 1%Q
    | _ => Qmake (2 * Z.of_nat (total_size (get_matching_blocks a b)))
                 (Pos.of_nat (length a + length b))
    end.
Proof. reflexivity. Qed.

(** X22: the similarity of two names is a proportion: it lies between 0
    and 1. *)
Theorem fuzzy_match_range (name1 name2 : str) :
  (0 <= fuzzy_match name1 name2 <= 1)%Q.
Proof.
  unfold fuzzy_match.
  set (a := strip (lower name1)). set (b := strip (lower name2)).
  rewrite ratio_matches. pose proof (matches_bound a b) as [Ha Hb].
  destruct (length a + length b)%nat eqn:E; [done|].
  unfold Qle. cbn [Qnum Qden]. rewrite <- E. split; [lia|].
  rewrite Z.mul_1_r, Z.mul_1_l.
  assert (Hpos : Z.pos (Pos.of_nat (length a + length b))
                 = Z.of_nat (length a + length b)).
  { rewrite E. rewrite <- Pos.of_nat_succ, Znat.Zpos_P_of_succ_nat. lia. }
  lia.
Qed.

(** X23: a fragment shorter than three sevenths of a name, or a name
    shorter than three sevenths of the fragment, both counted once
    lower-cased and trimmed, cannot reach the ratio 0.6: the fragment is
    then accepted exactly when it is a substring of the name. *)
Theorem accepts_short_fragment (fragment candidate : str) :
  (7 * length (strip (lower fragment)) <= 3 * length (strip (lower candidate))
   \/ 7 * length (strip (lower candidate)) <= 3 * length (strip (lower fragment)))%nat ->
  accepts fragment candidate = contains (strip (lower fragment)) (lower candidate).
Proof.
  intros Hshort. unfold accepts. rewrite fuzzy_match_normal.
  set (a := strip (lower fragment)) in *. set (b := strip (lower candidate)) in *.
  destruct (contains a (lower candidate)) eqn:Hc; [done|]. cbn [orb].
  destruct (length a + length b)%nat eqn:E.
  - assert (a = []) as Ha by (destruct a; [done | simpl in E; lia]).
    rewrite Ha in Hc. by rewrite contains_nil in Hc.
  - unfold Qgtb. apply negb_false_iff, Qle_bool_iff.
    rewrite ratio_matches, E. rewrite <- E.
    pose proof (matches_bound a b) as [Hma Hmb].
    unfold Qle, threshold. cbn [Qnum Qden].
    assert (Hpos : Z.pos (Pos.of_nat (length a + length b))
                   = Z.of_nat (length a + length b)).
    { rewrite E. rewrite <- Pos.of_nat_succ, Znat.Zpos_P_of_succ_nat. lia. }
    rewrite Hpos. lia.
Qed.

Lemma accepts_short_fragment_witness :
  accepts "la" "Los Angeles Lakers" = contains (strip (lower "la")) (lower "Los Angeles Lakers").
Proof.
  apply (accepts_short_fragment "la" "Los Angeles Lakers"). left. vm_compute. lia.
Defined.

(** ** print_games *)

Lemma ljust_length width s : length (ljust width s) = Nat.max width (length s).
Proof. unfold ljust. rewrite length_app, repeat_length. lia. Qed.

Lemma format_left_some repr_value width v :
  is_Some (format_left repr_value width v) <-> has_format v.
Proof. destruct v; simpl; split; (by eauto || by intros [? ?] || done). Qed.

Lemma game_line_some repr_value g :
  is_Some (game_line repr_value g) <-> has_format (g_away g) /\ has_format (g_home g).
Proof.
  unfold game_line. rewrite <- !(format_left_some repr_value 30).
  destruct (format_left repr_value 30 (g_away g)) as [away|];
    destruct (format_left repr_value 30 (g_home g)) as [home|];
    cbn [mbind option_bind]; split;
    (by eauto || by intros [[? ?] [? ?]] || by intros [? ?]).
Qed.

Lemma print_rows_ok repr_value stdout games :
  snd (print_rows repr_value stdout games) = true <->
  Forall (fun g => exists line, game_line repr_value g = Some line
                                /\ stdout line = true) games.
Proof.
  induction games as [|g games IH]; cbn [print_rows].
  - split; [constructor | done].
  - destruct (game_line repr_value g) as [line|] eqn:Eg.
    + destruct (stdout line) eqn:Eline.
      * destruct (print_rows repr_value stdout games) as [lines ok]. cbn [snd] in *.
        rewrite IH. split.
        -- intros H. constructor; [|done]. exists line. by split.
        -- by inversion 1.
      * cbn [snd]. split; [done|]. intros H. inversion H as [|? ? Hg _]; subst.
        destruct Hg as (line' & Hl' & Hl). congruence.
    + cbn [snd]. split; [done|]. intros H. inversion H as [|? ? Hg _]; subst.
      destruct Hg as (line' & Hl & _). congruence.
Qed.

Lemma print_rows_length repr_value stdout games :
  snd (print_rows repr_value stdout games) = true ->
  length (fst (print_rows repr_value stdout games)) = length games.
Proof.
  induction games as [|g games IH]; cbn [print_rows]; [done|].
  destruct (game_line repr_value g) as [line|]; [|done].
  destruct (stdout line); [|done].
  destruct (print_rows repr_value stdout games) as [lines ok]. cbn [fst snd] in *.
  intros H. cbn [length]. by rewrite (IH H).
Qed.

Lemma print_games_stream repr_value stdout games :
  snd (print_games repr_value stdout games) = true <->
  match games with
  | [] => stdout "No games found." = true
  | _ =>
      stdout header_line = true /\ stdout dashes = true
      /\ Forall (fun g => exists line, game_line repr_value g = Some line
                                       /\ stdout line = true) games
  end.
Proof.
  destruct games as [|g games]; unfold print_games.
  - by destruct (stdout _).
  - rewrite <- (print_rows_ok repr_value).
    destruct (stdout header_line); [|by split; [|intros [? _]]].
    destruct (stdout dashes); [|by split; [|intros (_ & ? & _)]].
    destruct (print_rows repr_value stdout (g :: games)) as [lines ok]. cbn [snd].
    split; [done | by intros (_ & _ & ?)].
Qed.

Lemma print_games_ok repr_value stdout games :
  (forall line, stdout line = true) ->
  snd (print_games repr_value stdout games) = true <->
  Forall (fun g => has_format (g_away g) /\ has_format (g_home g)) games.
Proof.
  intros Hall. rewrite print_games_stream.
  assert (Hrows : Forall (fun g => exists line, game_line repr_value g = Some line
                                                /\ stdout line = true) games
                  <-> Forall (fun g => has_format (g_away g) /\ has_format (g_home g))
                        games).
  { apply Forall_proper; [|done]. intros g.
    rewrite <- game_line_some. split.
    - intros (line & -> & _). by eexists.
    - intros [line ->]. by exists line. }
  destruct games as [|g games].
  - split; [constructor | by rewrite Hall].
  - rewrite Hrows. rewrite !Hall. tauto.
Qed.

(** X24: [print_games] comes to its end exactly when every line it has to
    print can be formatted and is taken by the stream: the one line for an
    empty list, or the header, the rule and the line of each game; it has
    then printed one line, or two and one per game.  The line of a game can
    be formatted exactly when neither its home nor its away name is [None],
    a list or a dict.  So on a stream that takes every line [print_games]
    comes to its end exactly when no game has such a name, and always on
    records whose names are strings. *)
Theorem print_games_lines (repr_value : json -> str) (stdout : str -> bool)
    (games : list game) :
  (snd (print_games repr_value stdout games) = true <->
   match games with
   | [] => stdout "No games found." = true
   | _ =>
       stdout header_line = true /\ stdout dashes = true
       /\ Forall (fun g => exists line, game_line repr_value g = Some line
                                        /\ stdout line = true) games
   end)
  /\ (forall g, is_Some (game_line repr_value g) <->
                has_format (g_away g) /\ has_format (g_home g))
  /\ (snd (print_games repr_value stdout games) = true ->
      length (fst (print_games repr_value stdout games))
      = match games with [] => 1%nat | _ => (2 + length games)%nat end)
  /\ ((forall line, stdout line = true) ->
      (snd (print_games repr_value stdout games) = true <->
       Forall (fun g => has_format (g_away g) /\ has_format (g_home g)) games)
      /\ (Forall named games -> snd (print_games repr_value stdout games) = true))
  /\ print_games repr_value (fun _ => true) [] = ([("No games found." : str)], true)
  /\ print_games repr_value (fun _ => false) games = ([], false).
Proof.
  split; [apply print_games_stream|]. split; [apply game_line_some|].
  split; [|split; [|split]].
  - destruct games as [|g games]; unfold print_games.
    + by destruct (stdout _).
    + destruct (stdout header_line); [|done]. destruct (stdout dashes); [|done].
      pose proof (print_rows_length repr_value stdout (g :: games)) as Hlen.
      destruct (print_rows repr_value stdout (g :: games)) as [lines ok].
      cbn [fst snd] in *. intros H. cbn [length]. by rewrite (Hlen H).
  - intros Hall. split; [by apply print_games_ok|].
    intros Hn. apply print_games_ok; [done|]. eapply Forall_impl; [exact Hn|].
    intros g [[home ->] [away ->]]. done.
  - done.
  - by destruct games.
Qed.

(** X25: a line of the table is never cut: its columns are as wide as the
    header's, or as the field when the field is wider; for a record whose
    fields fit (6, 30, 10 and 30 characters) the status starts at the 81st
    character, as in the header. *)
Theorem game_line_columns (repr_value : json -> str) (g : game) (home away : str) :
  g_home g = JStr home -> g_away g = JStr away ->
  exists line,
    game_line repr_value g = Some line
    /\ length line
       = (Nat.max 6 (length (g_league g)) + Nat.max 30 (length away)
          + Nat.max 10 (length (g_score g)) + Nat.max 30 (length home) + 4
          + length (status_text (g_status g)))%nat
    /\ ((length (g_league g) <= 6)%nat -> (length away <= 30)%nat ->
        (length (g_score g) <= 10)%nat -> (length home <= 30)%nat ->
        drop 80 line = status_text (g_status g)
        /\ drop 80 header_line = ("Status" : str)).
Proof.
  intros Hh Ha. unfold game_line. rewrite Hh, Ha. cbn [format_left mbind option_bind].
  eexists. split; [reflexivity|]. split.
  - rewrite !length_app, !ljust_length. simpl. lia.
  - intros H1 H2 H3 H4. split; [|reflexivity].
    rewrite !app_assoc. apply drop_app_length'.
    rewrite !length_app, !ljust_length. simpl. lia.
Qed.

Lemma game_line_columns_witness :
  exists line,
    game_line sample_repr (sample_game "Boston Celtics" "Los Angeles Lakers") = Some line
    /\ length line = 85%nat.
Proof.
  destruct (game_line_columns sample_repr
              (sample_game "Boston Celtics" "Los Angeles Lakers")
              "Boston Celtics" "Los Angeles Lakers" eq_refl eq_refl)
    as (line & Hline & Hlen & _).
  exists line. split; [exact Hline | exact Hlen].
Defined.

(** ** The interactive mode and main *)

Section Transports.

Variable repr_value : json -> str.
Variables http1 http2 : str -> params -> option json.
Variables clock1 clock2 : str -> datetime.

Hypothesis dated_agree :
  forall url d, http1 url [("dates" : str, PDate d)] = http2 url [("dates" : str, PDate d)].

Lemma fetch_league_dated lg d :
  fetch_league repr_value http1 clock1 lg None (Some d)
  = fetch_league repr_value http2 clock2 lg None (Some d).
Proof.
  unfold fetch_league. destruct (APIS_get lg); [|done].
  cbn [request_params]. by rewrite dated_agree.
Qed.

Lemma fetch_games_dated league d :
  fetch_games repr_value http1 clock1 league None (Some d)
  = fetch_games repr_value http2 clock2 league None (Some d).
Proof.
  unfold fetch_games. generalize (@nil game).
  induction (leagues_to_fetch league) as [|lg lgs IH]; intros acc; [done|].
  cbn [fetch_loop]. rewrite fetch_league_dated.
  destruct (fetch_league repr_value http2 clock2 lg None (Some d)); [|done].
  cbn [mbind option_bind]. apply IH.
Qed.

Lemma fetch_each_dated leagues d acc :
  fetch_each repr_value http1 clock1 leagues d acc
  = fetch_each repr_value http2 clock2 leagues d acc.
Proof.
  revert acc. induction leagues as [|lg lgs IH]; intros acc; [done|].
  cbn [fetch_each]. rewrite fetch_games_dated.
  destruct (fetch_games repr_value http2 clock2 (Some lg) None (Some d)); [|done].
  cbn [mbind option_bind]. apply IH.
Qed.

Lemma turn_dated a file :
  turn repr_value http1 clock1 a file = turn repr_value http2 clock2 a file.
Proof.
  destruct a; cbn [turn turn_games]; try done.
  - by rewrite fetch_each_dated.
  - by rewrite fetch_games_dated.
  - by rewrite fetch_each_dated.
Qed.

Lemma interactive_mode_dated_agree inputs file :
  interactive_mode repr_value http1 clock1 inputs file
  = interactive_mode repr_value http2 clock2 inputs file.
Proof.
  revert file. induction inputs as [|[line now] inputs IH]; intros file; [done|].
  cbn [interactive_mode].
  destruct (interactive_step line now) eqn:E; try done;
    rewrite turn_dated;
    (destruct (turn repr_value http2 clock2 _ file); [|done]);
    cbn [mbind option_bind]; apply IH.
Qed.

End Transports.

(** X26: the interactive mode makes requests scoped by date only, and
    reads the clock in the parsers only: two transports that answer alike
    the requests whose only parameter is [dates] lead a session to the same
    file, whatever they answer to requests by week and whatever clock
    [fetch_games] would read. *)
Theorem interactive_mode_dated (repr_value : json -> str)
    (http1 http2 : str -> params -> option json) (clock1 clock2 : str -> datetime)
    (inputs : list (str * datetime)) (file : csv_file) :
  (forall url d,
     http1 url [("dates" : str, PDate d)] = http2 url [("dates" : str, PDate d)]) ->
  interactive_mode repr_value http1 clock1 inputs file
  = interactive_mode repr_value http2 clock2 inputs file.
Proof. intros H. by apply interactive_mode_dated_agree. Qed.

Lemma interactive_mode_dated_witness :
  interactive_mode sample_repr
    (constant_transport (JObj [("events" : str, JArr [sample_event "STATUS_FINAL"])]))
    sample_clock [("nba score today" : str, sample_now)] None
  = interactive_mode sample_repr
      (dates_only_transport (JObj [("events" : str, JArr [sample_event "STATUS_FINAL"])]))
      (fun _ => add_days sample_now 1) [("nba score today" : str, sample_now)] None.
Proof.
  apply interactive_mode_dated. reflexivity.
Defined.

Lemma show_and_save_saves repr_value games file file' :
  show_and_save repr_value games file = Some file' -> file' = save_to_csv file games.
Proof. unfold show_and_save. destruct (snd _); [by intros [= <-] | done]. Qed.

Lemma turn_saves repr_value http_get clock a file file' :
  turn repr_value http_get clock a file = Some file' ->
  exists games, file' = save_to_csv file games.
Proof.
  destruct a; cbn [turn]; try (intros [= <-]; by exists []);
    (destruct (turn_games _ _ _ _) as [games|]; [|done]);
    cbn [mbind option_bind]; intros H%show_and_save_saves; by exists games.
Qed.

Lemma interactive_mode_saves repr_value http_get clock inputs file file' :
  interactive_mode repr_value http_get clock inputs file = Some file' ->
  exists games, file' = save_to_csv file games.
Proof.
  revert file. induction inputs as [|[line now] inputs IH]; intros file.
  - intros [= <-]. by exists [].
  - cbn [interactive_mode].
    destruct (interactive_step line now) eqn:E;
      try (intros [= <-]; by exists []);
      (destruct (turn repr_value http_get clock _ file) as [file1|] eqn:Et; [|done]);
      cbn [mbind option_bind]; intros (games2 & ->)%IH;
      apply turn_saves in Et as (games1 & ->);
      exists (games1 ++ games2); apply save_to_csv_app.
Qed.

Lemma main_saves repr_value http_get clock argv inputs now file file' :
  main repr_value http_get clock argv inputs now file = Some file' ->
  exists games, file' = save_to_csv file games.
Proof.
  unfold main. destruct argv as [|prog [|arg args]];
    try apply interactive_mode_saves.
  destruct (fetch_games _ _ _ _ _ _) as [games|]; [|done].
  cbn [mbind option_bind]. intros H%show_and_save_saves. by exists games.
Qed.

(** X27: a run of the program that ends without an exception, in either
    mode, has only added to the file: the file at the end is the file at
    the start with the rows of some games after it; and a file the run
    created begins with the header, which occurs nowhere else in it. *)
Theorem main_appends (repr_value : json -> str)
    (http_get : str -> params -> option json) (clock : str -> datetime)
    (argv : list str) (inputs : list (str * datetime)) (now : datetime)
    (file file' : csv_file) :
  main repr_value http_get clock argv inputs now file = Some file' ->
  exists games,
    file' = save_to_csv file games
    /\ (forall content,
          file = Some content -> file' = Some (content ++ map game_row games))
    /\ (file = None ->
        forall rows, file' = Some rows ->
          rows = header_row :: map game_row games
          /\ header_row ∉ map game_row games).
Proof.
  intros (games & ->)%main_saves. exists games. split; [done|]. split.
  - intros content ->. destruct games; [by rewrite app_nil_r | done].
  - intros -> rows. destruct games as [|g games]; [done|].
    cbn. intros [= <-]. split; [done|].
    intros Hin. apply list_elem_of_In in Hin.
    change (In header_row (map game_row (g :: games))) in Hin.
    apply in_map_iff in Hin as (g' & Hg' & _). by apply game_row_not_header in Hg'.
Qed.

Lemma main_appends_witness :
  exists games,
    main sample_repr
      (constant_transport (JObj [("events" : str, JArr [sample_event "STATUS_FINAL"])]))
      sample_clock [("scraper" : str); ("nba" : str); ("today" : str)] [] sample_now None
    = Some (save_to_csv None games).
Proof.
  destruct (main_appends sample_repr
              (constant_transport
                 (JObj [("events" : str, JArr [sample_event "STATUS_FINAL"])]))
              sample_clock [("scraper" : str); ("nba" : str); ("today" : str)] []
              sample_now None
              (Some [header_row;
                     game_row (mk_game "NBA" (JStr "Boston Celtics")
                                 (JStr "Los Angeles Lakers") "101-99" Final
                                 (JStr "2026-11-04"))]))
    as (games & Hg & _); [reflexivity|].
  exists games. rewrite <- Hg. reflexivity.
Defined.

(** X28: when the text names one league and the two parsers read the same
    league and date in it and no week, the one-shot mode does to the file
    what the interactive mode does with that text as its only line. *)
Theorem main_as_interactive (repr_value : json -> str)
    (http_get : str -> params -> option json) (clock : str -> datetime)
    (prog line lg : str) (now d : datetime) (file : csv_file) :
  interactive_step line now = LeagueScores [lg] d ->
  parse_query line now = mk_query_intent (Some lg) None (Some d) ->
  main repr_value http_get clock [prog; line] [] now file
  = interactive_mode repr_value http_get clock [(line, now)] file.
Proof.
  intros Hstep Hparse. unfold main. cbn [join_spaces interactive_mode].
  rewrite Hstep, Hparse. cbn [qi_league qi_week qi_date turn turn_games fetch_each].
  destruct (fetch_games repr_value http_get clock (Some lg) None (Some d))
    as [games|]; [|done].
  cbn [mbind option_bind app].
  by destruct (show_and_save repr_value games file).
Qed.

Lemma main_as_interactive_witness :
  main sample_repr
    (constant_transport (JObj [("events" : str, JArr [sample_event "STATUS_FINAL"])]))
    sample_clock [("scraper" : str); ("nba score today" : str)] [] sample_now None
  = interactive_mode sample_repr
      (constant_transport (JObj [("events" : str, JArr [sample_event "STATUS_FINAL"])]))
      sample_clock [("nba score today" : str, sample_now)] None.
Proof.
  apply (main_as_interactive sample_repr _ sample_clock "scraper" "nba score today"
           "nba" sample_now sample_now None); reflexivity.
Defined.

Lemma named_has_format g : named g -> has_format (g_away g) /\ has_format (g_home g).
Proof. by intros [[home ->] [away ->]]. Qed.

Lemma find_team_game_named games team1 team2 matched :
  find_team_game games team1 team2 = Some matched -> Forall named matched.
Proof.
  intros H. destruct (all_named_or_not games) as [Hn|Hn];
    [|by rewrite find_team_game_unnamed in H].
  unfold find_team_game in H. rewrite find_loop_filter in H by done.
  injection H as <-. cbn [app]. by apply filter_named.
Qed.

(** X29: the records a team search returns have string names, so every
    line of their table can be formatted and [print_games] comes to its end
    on any stream that takes every line.  A turn that lists the scores of
    leagues or of all sports raises, and saves nothing, when one of the
    records fetched has a home or an away name that is [None], a list or a
    dict. *)
Theorem turn_outcome (repr_value : json -> str)
    (http_get : str -> params -> option json) (clock : str -> datetime)
    (a : action) (file : csv_file) (games : list game) :
  turn_games repr_value http_get clock a = Some games ->
  ((exists tq, a = TeamSearch tq) ->
   Forall named games
   /\ Forall (fun g => is_Some (game_line repr_value g)) games
   /\ (forall stdout, (forall line, stdout line = true) ->
         snd (print_games repr_value stdout games) = true))
  /\ ((exists date, a = AllSports date)
      \/ (exists leagues date, a = LeagueScores leagues date) ->
      Exists (fun g => ~ has_format (g_home g) \/ ~ has_format (g_away g)) games ->
      turn repr_value http_get clock a file = None).
Proof.
  intros Hgames. split.
  - intros [tq ->]. cbn [turn_games] in Hgames.
    destruct (fetch_games repr_value http_get clock None None (Some (tq_date tq)))
      as [all_games|]; [|done].
    cbn [mbind option_bind] in Hgames. apply find_team_game_named in Hgames.
    assert (Hfmt : Forall (fun g => has_format (g_away g) /\ has_format (g_home g))
                     games).
    { eapply Forall_impl; [exact Hgames | apply named_has_format]. }
    split; [done|]. split.
    + eapply Forall_impl; [exact Hfmt|]. intros g Hg. by apply game_line_some.
    + intros stdout Hall. by apply print_games_ok.
  - intros Ha Hbad.
    assert (Hturn : turn repr_value http_get clock a file
                    = show_and_save repr_value games file).
    { destruct Ha as [[date ->] | (leagues & date & ->)];
        cbn [turn]; by rewrite Hgames. }
    rewrite Hturn. unfold show_and_save.
    destruct (snd (print_games repr_value (fun _ => true) games)) eqn:E; [|done].
    apply print_games_ok in E; [|done].
    apply Exists_exists in Hbad as (g & Hg & Hnone).
    rewrite Forall_forall in E. destruct (E g Hg) as [Haway Hhome].
    by destruct Hnone.
Qed.

Lemma turn_outcome_witness :
  turn_games sample_repr (constant_transport scoreboard_no_home) sample_clock
    (LeagueScores [("nba" : str)] sample_now)
  = Some [mk_game "NBA" JNull (JStr "Los Angeles Lakers") "-" Scheduled (JStr "")]
  /\ turn sample_repr (constant_transport scoreboard_no_home) sample_clock
       (LeagueScores [("nba" : str)] sample_now) None
     = None
  /\ turn sample_repr (constant_transport sample_scoreboard) sample_clock
       (LeagueScores [("nba" : str)] sample_now) None
     = Some (Some [ [JStr "date"; JStr "league"; JStr "home"; JStr "away";
                     JStr "score"; JStr "status"];
                    [JStr "2026-11-04"; JStr "NBA"; JStr "Boston Celtics";
                     JStr "Los Angeles Lakers"; JStr "101-99"; JStr "Final"] ]).
Proof.
  assert (E : turn_games sample_repr (constant_transport scoreboard_no_home)
                sample_clock (LeagueScores [("nba" : str)] sample_now)
              = Some [mk_game "NBA" JNull (JStr "Los Angeles Lakers") "-" Scheduled
                        (JStr "")]) by reflexivity.
  split; [exact E|]. split; [|reflexivity].
  destruct (turn_outcome sample_repr _ sample_clock _ None _ E) as [_ H].
  apply H.
  - right. by eexists _, _.
  - left. left. cbn. tauto.
Defined.

Lemma strip_nil s : strip s = [] <-> Forall (fun c => is_space c = true) s.
Proof.
  split.
  - intros H. destruct (strip_split s) as (l & r & Hs & Hl & Hr).
    rewrite H in Hs. rewrite Hs. apply Forall_app. by split.
  - intros H. unfold strip. by rewrite lstrip_blank.
Qed.

(** X30: a turn does nothing exactly when the line is blank; the loop ends
    exactly when the line, trimmed and in any letter case, is [quit],
    [exit] or [q]; and the help is shown exactly when it is [help]. *)
Theorem interactive_step_commands (line : str) (now : datetime) :
  (interactive_step line now = Skip <-> Forall (fun c => is_space c = true) line)
  /\ (interactive_step line now = Goodbye <->
      lower (strip line) ∈ [("quit" : str); ("exit" : str); ("q" : str)])
  /\ (interactive_step line now = Help <-> lower (strip line) = ("help" : str)).
Proof.
  rewrite <- strip_nil. unfold interactive_step.
  destruct (strip line) as [|c u] eqn:Hs.
  - split; [done|]. split; split; try done.
    intros H. apply list_elem_of_In in H. simpl in H. 
    destruct H as [H|[H|[H|[]]]]; discriminate H.
  - set (cmd := lower (c :: u)).
    destruct (bool_decide (cmd ∈ [("quit" : str); ("exit" : str); ("q" : str)])) eqn:Eq.
    + apply bool_decide_eq_true in Eq. split; [done|]. split; [done|].
      split; [done|]. intros Hh. rewrite Hh in Eq.
      apply list_elem_of_In in Eq. simpl in Eq.
      destruct Eq as [H|[H|[H|[]]]]; discriminate H.
    + apply bool_decide_eq_false in Eq.
      unfold str_eqb. destruct (bool_decide (cmd = ("help" : str))) eqn:Eh.
      * apply bool_decide_eq_true in Eh. split; [done|]. split; [done|]. done.
      * apply bool_decide_eq_false in Eh.
        destruct (contains "all sports" cmd || contains "all score" cmd);
          [split; [done|]; split; split; done|].
        destruct (contains " vs " cmd || contains " v " cmd);
          [split; [done|]; split; split; done|].
        destruct (lq_leagues (parse_multi_league_query (c :: u) now));
          split; try done; split; split; done.
Qed.
